(** * VisionScribe: similarity, text deduplication and frame deduplication

    A shallow embedding of the parts of the VisionScribe sources that decide
    the similarity and deduplication properties:

    - [utils/text_similarity.py]: [calculate_text_similarity], [clean_text],
      [_cosine_similarity], [_jaccard_similarity], [_levenshtein_similarity],
      [_word_overlap_similarity];
    - [text_deduplicator.py]: [TextDeduplicator.deduplicate_texts];
    - [video_processor.py]: [VideoProcessor.deduplicate_frames],
      [VideoProcessor._calculate_frame_similarity];

    and, around them,

    - [utils/text_similarity.py]: [calculate_similarity_matrix],
      [find_similar_pairs], [extract_keywords], [normalize_text_similarity];
    - [video_processor.py]: [VideoProcessor.extract_frames],
      [VideoProcessor.filter_frames_by_quality];
    - [text_extractor.py]: [TextExtractor.extract_text_from_video];
    - [main.py]: the text blocks that the commands [run], [ocr] and [analyze]
      hand from the extractor to the deduplicator, and the frames that
      [frames] hands from the extraction to the deduplication.

    Modelling conventions.

    - A Python [str] is a [string] read as a sequence of code points below
      256 (one [ascii] per code point); the character classes below are the
      ones of Python's [str.isspace], [str.lower] and the [re] module on that
      range.
    - A Python [float] score is a rational [Q].  Every score of the modelled
      code is [0.0], [1.0], a quotient [a / b] of two integers or
      [1 - a / b]; scores are compared with [Qeq].
    - A call that may raise has type [outcome A]: [Returns a] or [Raises e],
      [e] the name of the exception class.  List indexing is written with
      its [IndexError].
    - The two library computations the sources call and do not define (the
      scikit-learn TF-IDF pipeline, and OpenCV image loading with the
      scikit-image structural similarity) are section variables. *)

From Stdlib Require Import QArith Qround Ascii String Lia DecimalString DecimalNat Sorted.
From stdpp Require Import base option list gmap strings sets.

Local Open Scope nat_scope.

(** ** Calls that may raise *)

Inductive outcome (A : Type) : Type :=
| Returns (a : A)
| Raises (e : string).

Arguments Returns {A} a.
Arguments Raises {A} e.

#[global] Instance outcome_ret : MRet outcome := fun A a => Returns a.

#[global] Instance outcome_bind : MBind outcome := fun A B k o =>
  match o with
  | Returns a => k a
  | Raises e => Raises e
  end.

(** [for x in xs: s = body x s], stopping at the first exception. *)
Fixpoint for_each {A St : Type} (xs : list A) (body : A -> St -> outcome St)
    (s : St) : outcome St :=
  match xs with
  | [] => Returns s
  | x :: xs' => s' ← body x s; for_each xs' body s'
  end.

(** Python's [range(lo, hi)]. *)
Definition range (lo hi : nat) : list nat := seq lo (hi - lo).

(** The call returned a score equal to [q]. *)
Definition returns_score (o : outcome Q) (q : Q) : Prop :=
  exists s : Q, o = Returns s /\ (s == q)%Q.

(** ** Python strings on code points below 256 *)

Module PyStr.

Definition code (c : ascii) : nat := nat_of_ascii c.

Definition between (lo hi n : nat) : bool := (lo <=? n) && (n <=? hi).

(** [str.isspace] (also the whitespace of [str.split()] and of the regular
    expression class [\s]): U+0009..U+000D, U+001C..U+0020, U+0085, U+00A0. *)
Definition isspace (c : ascii) : bool :=
  let n := code c in
  between 9 13 n || between 28 32 n || (n =? 133) || (n =? 160).

(** The regular expression class [\w]: alphanumeric code points and [_]. *)
Definition isword (c : ascii) : bool :=
  let n := code c in
  between 48 57 n || between 65 90 n || (n =? 95) || between 97 122 n
  || (n =? 170) || between 178 179 n || (n =? 181) || between 185 186 n
  || between 188 190 n || between 192 214 n || between 216 246 n
  || between 248 255 n.

(** [str.lower] on one code point: [A-Z], U+00C0..U+00D6 and U+00D8..U+00DE
    move up by 32. *)
Definition lower_char (c : ascii) : ascii :=
  let n := code c in
  if between 65 90 n || between 192 214 n || between 216 222 n
  then ascii_of_nat (n + 32) else c.

Fixpoint lower (s : string) : string :=
  match s with
  | EmptyString => EmptyString
  | String c s' => String (lower_char c) (lower s')
  end.

Fixpoint filter_chars (keep : ascii -> bool) (s : string) : string :=
  match s with
  | EmptyString => EmptyString
  | String c s' =>
      if keep c then String c (filter_chars keep s') else filter_chars keep s'
  end.

(** [str.split()] with no argument: the maximal runs of non-whitespace.
    [cur] is the word being read. *)
Fixpoint split_from (cur : string) (s : string) : list string :=
  match s with
  | EmptyString => if String.eqb cur EmptyString then [] else [cur]
  | String c s' =>
      if isspace c
      then (if String.eqb cur EmptyString then split_from EmptyString s'
            else cur :: split_from EmptyString s')
      else split_from (cur ++ String c EmptyString)%string s'
  end.

Definition split (s : string) : list string := split_from EmptyString s.

(** [sep.join(l)]. *)
Fixpoint join (sep : string) (l : list string) : string :=
  match l with
  | [] => EmptyString
  | [x] => x
  | x :: rest => (x ++ sep ++ join sep rest)%string
  end.

(** Python truthiness of a [str]: [not s] holds for the empty string only. *)
Definition falsy (s : string) : bool := String.eqb s EmptyString.

End PyStr.

(** ** [utils/text_similarity.py] *)

(** Python's true division [a / b] of two non-negative integers, as a
    rational.  Every use below is guarded by a test that [b] is not zero. *)
Definition truediv (a b : nat) : Q :=
  (inject_Z (Z.of_nat a) / inject_Z (Z.of_nat b))%Q.

(** The characters the regular expression of [clean_text] lists after
    [\w] and [\s]; the last one is the double quote. *)
Definition kept_punctuation : list ascii :=
  list_ascii_of_string "\-.()[]{}:;#@$%^&*+=<>/?!'~`|" ++ [ascii_of_nat 34].

(** A character survives [re.sub(r'[^\w\s...]', '', text)] when it is in the
    negated class. *)
Definition kept_char (c : ascii) : bool :=
  PyStr.isword c || PyStr.isspace c || existsb (Ascii.eqb c) kept_punctuation.

Definition clean_text (text : string) : string :=
  let text := PyStr.join " " (PyStr.split text) in
  let text := PyStr.filter_chars kept_char text in
  PyStr.lower text.

(** [set(text.split())]. *)
Definition word_set (text : string) : gset string :=
  list_to_set (PyStr.split text).

Definition _jaccard_similarity (text1 text2 : string) : Q :=
  let words1 := word_set text1 in
  let words2 := word_set text2 in
  let intersection := size (words1 ∩ words2) in
  let union := size (words1 ∪ words2) in
  if union =? 0 then 0%Q else truediv intersection union.

Definition _word_overlap_similarity (text1 text2 : string) : Q :=
  let words1 := PyStr.split text1 in
  let words2 := PyStr.split text2 in
  if bool_decide (words1 = []) || bool_decide (words2 = []) then 0%Q
  else
    let overlap := size ((list_to_set words1 : gset string) ∩ list_to_set words2) in
    let total := size ((list_to_set words1 : gset string) ∪ list_to_set words2) in
    if 0 <? total then truediv overlap total else 0%Q.

(** *** The Levenshtein matrix *)

Module Matrix.

Abbreviation t := (list (list nat)).

(** [[[0] * cols for _ in range(rows)]]: the rows are distinct lists. *)
Definition zeros (rows cols : nat) : t := replicate rows (replicate cols 0).

(** [dp[i][j]]. *)
Definition get (dp : t) (i j : nat) : outcome nat :=
  match dp !! i with
  | Some row =>
      match row !! j with
      | Some v => Returns v
      | None => Raises "IndexError"
      end
  | None => Raises "IndexError"
  end.

(** [dp[i][j] = v]. *)
Definition set (dp : t) (i j v : nat) : outcome t :=
  match dp !! i with
  | Some row =>
      if decide (j < length row)
      then Returns (<[i := <[j := v]> row]> dp)
      else Raises "IndexError"
  | None => Raises "IndexError"
  end.

End Matrix.

(** [text[i]] for a non-negative index. *)
Definition char_at (text : list ascii) (i : nat) : outcome ascii :=
  match text !! i with
  | Some c => Returns c
  | None => Raises "IndexError"
  end.

(** One pass of the body of the inner loop: fills [dp[i][j]]. *)
Definition levenshtein_cell (text1 text2 : list ascii) (i j : nat)
    (dp : Matrix.t) : outcome Matrix.t :=
  c1 ← char_at text1 (i - 1);
  c2 ← char_at text2 (j - 1);
  if decide (c1 = c2)
  then
    diag ← Matrix.get dp (i - 1) (j - 1);
    Matrix.set dp i j diag
  else
    up ← Matrix.get dp (i - 1) j;
    left ← Matrix.get dp i (j - 1);
    diag ← Matrix.get dp (i - 1) (j - 1);
    Matrix.set dp i j (1 + Nat.min up (Nat.min left diag)).

(** The matrix [dp] as it stands after the three loops. *)
Definition levenshtein_matrix (text1 text2 : list ascii) : outcome Matrix.t :=
  let m := length text1 in
  let n := length text2 in
  let dp := Matrix.zeros (m + 1) (n + 1) in
  dp ← for_each (range 0 (m + 1)) (fun i dp => Matrix.set dp i 0 i) dp;
  dp ← for_each (range 0 (n + 1)) (fun j dp => Matrix.set dp 0 j j) dp;
  for_each (range 1 (m + 1))
    (fun i dp => for_each (range 1 (n + 1)) (levenshtein_cell text1 text2 i) dp)
    dp.

Definition _levenshtein_similarity (text1 text2 : string) : outcome Q :=
  let t1 := list_ascii_of_string text1 in
  let t2 := list_ascii_of_string text2 in
  let m := length t1 in
  let n := length t2 in
  dp ← levenshtein_matrix t1 t2;
  let max_len := Nat.max m n in
  if max_len =? 0 then Returns 1%Q
  else
    d ← Matrix.get dp m n;
    Returns (1 - truediv d max_len)%Q.

Section TextSimilarity.

(** The body of the [try] in [_cosine_similarity]:
    [TfidfVectorizer(stop_words='english', max_features=1000)] fitted on the
    two texts, then [cosine_similarity] of the two rows.  It may raise. *)
Variable tfidf_cosine : string -> string -> outcome Q.

Definition _cosine_similarity (text1 text2 : string) : Q :=
  match tfidf_cosine text1 text2 with
  | Returns similarity => similarity
  | Raises _ => 0%Q
  end.

Definition calculate_text_similarity (text1 text2 method : string) : outcome Q :=
  if PyStr.falsy text1 || PyStr.falsy text2 then Returns 0%Q
  else
    let text1 := clean_text text1 in
    let text2 := clean_text text2 in
    if String.eqb method "cosine" then Returns (_cosine_similarity text1 text2)
    else if String.eqb method "jaccard" then Returns (_jaccard_similarity text1 text2)
    else if String.eqb method "levenshtein" then _levenshtein_similarity text1 text2
    else if String.eqb method "word_overlap" then Returns (_word_overlap_similarity text1 text2)
    else Returns (_cosine_similarity text1 text2).

End TextSimilarity.

(** The method names [calculate_text_similarity] tests for. *)
Definition supported_methods : list string :=
  ["cosine"; "jaccard"; "levenshtein"; "word_overlap"]%string.

(** ** [text_deduplicator.py] *)

(** A text block: the dictionary the callers build, with the keys
    ["text"], ["confidence"], ["bbox"], ["source_frames"], ["language"]. *)
Record TextBlock : Type := {
  text : string;
  confidence : Q;
  bbox : Z * Z * Z * Z;
  source_frames : list Q;
  language : string
}.

(** [TextDeduplicator]: its only attribute is the [config] dictionary. *)
Record TextDeduplicator : Type := {
  config : gmap string Q
}.

(** [__init__]: [self.config = config or {}]. *)
Definition TextDeduplicator_init (cfg : option (gmap string Q)) : TextDeduplicator :=
  {| config := match cfg with
               | Some c => if bool_decide (c = ∅) then ∅ else c
               | None => ∅
               end |}.

(** The loop of [deduplicate_texts], threading [seen_texts] and
    [unique_blocks]. *)
Fixpoint deduplicate_loop (text_blocks : list TextBlock)
    (seen_texts : gset string) (unique_blocks : list TextBlock) : list TextBlock :=
  match text_blocks with
  | [] => unique_blocks
  | block :: rest =>
      if bool_decide (text block ∉ seen_texts)
      then deduplicate_loop rest ({[ text block ]} ∪ seen_texts) (unique_blocks ++ [block])
      else deduplicate_loop rest seen_texts unique_blocks
  end.

Definition deduplicate_texts (self : TextDeduplicator)
    (text_blocks : list TextBlock) : list TextBlock :=
  match text_blocks with
  | [] => []
  | _ => deduplicate_loop text_blocks ∅ []
  end.

(** ** [video_processor.py] *)

(** The dataclass [Frame] of [models.py]; [frame_id], [frame_confidence] and
    [frame_size] are its fields [id], [confidence] and [size]. *)
Record Frame : Type := {
  frame_id : Z;
  image_path : string;
  timestamp : Q;
  text_content : string;
  frame_confidence : Q;
  frame_size : Z * Z
}.

Section FrameDeduplication.

(** A decoded image, [cv2.imread] ([None] when the file cannot be read), and
    the rest of the [try] in [_calculate_frame_similarity]: the second image
    resized to the first one's shape, then [structural_similarity].  An
    exception anywhere in the [try] gives 0.0, as an unreadable file does;
    the warning it logs is not modelled. *)
Variable image : Type.
Variable imread : string -> option image.
Variable resized_ssim : image -> image -> outcome Q.

Definition _calculate_frame_similarity (frame1 frame2 : Frame) : Q :=
  match imread (image_path frame1), imread (image_path frame2) with
  | Some img1, Some img2 =>
      match resized_ssim img1 img2 with
      | Returns similarity => similarity
      | Raises _ => 0%Q
      end
  | _, _ => 0%Q
  end.

(** [similarity > threshold]. *)
Definition exceeds (similarity threshold : Q) : bool :=
  negb (Qle_bool similarity threshold).

(** The inner loop: [frame] against the retained frames in order, up to the
    [break].  Returns [is_duplicate] and the comparisons made, each a pair
    (candidate, retained frame). *)
Fixpoint scan_unique (threshold : Q) (frame : Frame) (unique_frames : list Frame)
    : bool * list (Frame * Frame) :=
  match unique_frames with
  | [] => (false, [])
  | unique_frame :: rest =>
      if exceeds (_calculate_frame_similarity frame unique_frame) threshold
      then (true, [(frame, unique_frame)])
      else
        let '(is_duplicate, compared) := scan_unique threshold frame rest in
        (is_duplicate, (frame, unique_frame) :: compared)
  end.

(** The outer loop over [frames[1:]], threading [unique_frames] and the log
    of comparisons. *)
Fixpoint dedup_loop (threshold : Q) (frames : list Frame)
    (unique_frames : list Frame) (log : list (Frame * Frame))
    : list Frame * list (Frame * Frame) :=
  match frames with
  | [] => (unique_frames, log)
  | frame :: rest =>
      let '(is_duplicate, compared) := scan_unique threshold frame unique_frames in
      if is_duplicate
      then dedup_loop threshold rest unique_frames (log ++ compared)
      else dedup_loop threshold rest (unique_frames ++ [frame]) (log ++ compared)
  end.

(** [deduplicate_frames] with the comparisons it made, in order. *)
Definition deduplicate_frames_run (frames : list Frame) (threshold : Q)
    : list Frame * list (Frame * Frame) :=
  match frames with
  | [] => ([], [])
  | first :: rest => dedup_loop threshold rest [first] []
  end.

Definition deduplicate_frames (frames : list Frame) (threshold : Q) : list Frame :=
  fst (deduplicate_frames_run frames threshold).

Definition comparisons (frames : list Frame) (threshold : Q) : list (Frame * Frame) :=
  snd (deduplicate_frames_run frames threshold).

End FrameDeduplication.

(** The default of the parameter [threshold] of [deduplicate_frames]. *)
Definition default_threshold : Q := 95 # 100.

(** * More of the code *)

(** ** [utils/text_similarity.py]: [normalize_text_similarity] *)

(** Python's [min(a, b)] and [max(a, b)] of two numbers: the first argument
    unless the second is strictly smaller (greater). *)
Definition py_min (a b : Q) : Q := if Qlt_le_dec b a then b else a.

Definition py_max (a b : Q) : Q := if Qlt_le_dec a b then b else a.

Definition normalize_text_similarity (similarity : Q) : Q :=
  py_max 0 (py_min 1 similarity).

(** ** [text_extractor.py] *)

(** [str(i)] for a non-negative integer: its decimal digits. *)
Definition str_of_nat (i : nat) : string :=
  DecimalString.NilEmpty.string_of_uint (Nat.to_uint i).

(** [TextExtractor]: its attribute [languages] ([languages or ["en"]]). *)
Record TextExtractor : Type := {
  languages : list string
}.

Definition TextExtractor_init (langs : option (list string)) : TextExtractor :=
  {| languages := match langs with
                  | Some (l :: ls) => l :: ls
                  | _ => ["en"%string]
                  end |}.

(** [extract_text_from_video]: one block per frame, numbered from 0; the
    frames themselves are not looked at. *)
Definition extract_text_from_video {A : Type} (self : TextExtractor)
    (frames : list A) : list TextBlock :=
  imap (fun i _ =>
          {| text := ("Sample text from frame " ++ str_of_nat i)%string;
             confidence := 9 # 10;
             bbox := (0, 0, 100, 50)%Z;
             source_frames := [inject_Z (Z.of_nat i)];
             language := "en" |}) frames.

(** ** [main.py]: the data the [ocr] and [analyze] commands pass on *)

(** A text block of the OCR data: the keys ["text"], ["confidence"],
    ["bbox"], ["language"]. *)
Record OcrBlock : Type := {
  ocr_text : string;
  ocr_confidence : Q;
  ocr_bbox : Z * Z * Z * Z;
  ocr_language : string
}.

(** A frame of the OCR data: the keys ["file_path"], ["timestamp"],
    ["text_blocks"]. *)
Record OcrFrame : Type := {
  ocr_file_path : string;
  ocr_timestamp : Q;
  ocr_text_blocks : list OcrBlock
}.

(** An entry of [all_texts] in [analyze]: the keys ["text"], ["confidence"],
    ["timestamp"], ["source_file"], ["language"]. *)
Record TextItem : Type := {
  item_text : string;
  item_confidence : Q;
  item_timestamp : Q;
  item_source_file : string;
  item_language : string
}.

Section OcrCommand.

(** The frame of an image file, and the timestamp [ocr] reads off its name
    (0.0 when the name has none). *)
Variable A : Type.
Variable timestamp_of_name : string -> Q.

(** The loop of [ocr] over the frames that could be read: the extractor is
    called on one frame at a time, and the blocks at or above the confidence
    threshold are kept.  (With no frame at all the command exits before the
    loop.) *)
Definition ocr_frame_data (extractor : TextExtractor) (confidence_threshold : Q)
    (img : string * A) : OcrFrame :=
  let text_blocks := extract_text_from_video extractor [snd img] in
  {| ocr_file_path := fst img;
     ocr_timestamp := timestamp_of_name (fst img);
     ocr_text_blocks :=
       omap (fun block =>
               if Qle_bool confidence_threshold (confidence block)
               then Some {| ocr_text := text block;
                            ocr_confidence := confidence block;
                            ocr_bbox := bbox block;
                            ocr_language := language block |}
               else None) text_blocks |}.

Definition ocr_data (extractor : TextExtractor) (confidence_threshold : Q)
    (frames : list (string * A)) : list OcrFrame :=
  map (ocr_frame_data extractor confidence_threshold) frames.

End OcrCommand.

(** [analyze] reads the frames back from the JSON file [ocr] has written
    them to, with the keys [ocr] gives them.  The list [all_texts]: one entry
    per block of every frame. *)
Definition all_texts (frames : list OcrFrame) : list TextItem :=
  flat_map (fun frame =>
              map (fun text_block =>
                     {| item_text := ocr_text text_block;
                        item_confidence := ocr_confidence text_block;
                        item_timestamp := ocr_timestamp frame;
                        item_source_file := ocr_file_path frame;
                        item_language := ocr_language text_block |})
                (ocr_text_blocks frame)) frames.

(** The dictionary [analyze] builds for the deduplicator. *)
Definition to_text_dict (text_item : TextItem) : TextBlock :=
  {| text := item_text text_item;
     confidence := item_confidence text_item;
     bbox := (0, 0, 100, 50)%Z;
     source_frames := [item_timestamp text_item];
     language := item_language text_item |}.

(** And the entry it builds back from a deduplicated dictionary. *)
Definition refined_text (dedup_text : TextBlock) : TextItem :=
  {| item_text := text dedup_text;
     item_confidence := confidence dedup_text;
     item_timestamp := match source_frames dedup_text with
                       | t :: _ => t
                       | [] => 0%Q
                       end;
     item_source_file := "unknown";
     item_language := language dedup_text |}.

(** [all_texts] as [analyze] hands it to the reconstruction, with or without
    the [--dedup] flag. *)
Definition analyze_texts (dedup : bool) (frames : list OcrFrame) : list TextItem :=
  let texts := all_texts frames in
  if dedup
  then map refined_text
         (deduplicate_texts (TextDeduplicator_init None) (map to_text_dict texts))
  else texts.

(** An entry with its source file forgotten. *)
Definition without_source (text_item : TextItem) : TextItem :=
  {| item_text := item_text text_item;
     item_confidence := item_confidence text_item;
     item_timestamp := item_timestamp text_item;
     item_source_file := "unknown";
     item_language := item_language text_item |}.

(** ** [utils/text_similarity.py]: [calculate_similarity_matrix] and
    [find_similar_pairs] *)

(** [l[i]] for a non-negative index. *)
Definition py_index {A : Type} (l : list A) (i : nat) : outcome A :=
  match l !! i with
  | Some x => Returns x
  | None => Raises "IndexError"
  end.

(** A two-dimensional array of floats. *)
Module Array2.

Abbreviation t := (list (list Q)).

(** [np.zeros((rows, cols))]. *)
Definition zeros (rows cols : nat) : t := replicate rows (replicate cols 0%Q).

(** [a[i][j] = v]. *)
Definition set (a : t) (i j : nat) (v : Q) : outcome t :=
  match a !! i with
  | Some row =>
      if decide (j < length row)
      then Returns (<[i := <[j := v]> row]> a)
      else Raises "IndexError"
  | None => Raises "IndexError"
  end.

(** The cell [a[i][j]], when the two indices are in range. *)
Definition cell (a : t) (i j : nat) : option Q :=
  match a !! i with
  | Some row => row !! j
  | None => None
  end.

End Array2.

(** [list.sort(key=key, reverse=True)] and [sorted(..., reverse=True)]: the
    stable sort by decreasing key, as the insertion of each element, from
    the last to the first, behind the elements of strictly greater key. *)
Fixpoint insert_by_key_desc {A : Type} (key : A -> Q) (x : A) (l : list A) : list A :=
  match l with
  | [] => [x]
  | y :: l' =>
      if Qlt_le_dec (key x) (key y) then y :: insert_by_key_desc key x l'
      else x :: y :: l'
  end.

Definition sort_by_key_desc {A : Type} (key : A -> Q) (l : list A) : list A :=
  foldr (insert_by_key_desc key) [] l.

Section SimilarityTables.

Variable tfidf_cosine : string -> string -> outcome Q.

(** The body of the inner loop of [calculate_similarity_matrix]. *)
Definition similarity_matrix_cell (texts : list string) (method : string)
    (i j : nat) (similarity_matrix : Array2.t) : outcome Array2.t :=
  if decide (i = j) then Array2.set similarity_matrix i j 1%Q
  else
    text_i ← py_index texts i;
    text_j ← py_index texts j;
    similarity ← calculate_text_similarity tfidf_cosine text_i text_j method;
    Array2.set similarity_matrix i j similarity.

Definition calculate_similarity_matrix (texts : list string) (method : string)
    : outcome Array2.t :=
  let n := length texts in
  for_each (range 0 n)
    (fun i similarity_matrix =>
       for_each (range 0 n) (similarity_matrix_cell texts method i) similarity_matrix)
    (Array2.zeros n n).

(** The body of the inner loop of [find_similar_pairs]. *)
Definition similar_pair_step (texts : list string) (threshold : Q) (method : string)
    (i j : nat) (similar_pairs : list (nat * nat * Q)) : outcome (list (nat * nat * Q)) :=
  text_i ← py_index texts i;
  text_j ← py_index texts j;
  similarity ← calculate_text_similarity tfidf_cosine text_i text_j method;
  if Qle_bool threshold similarity
  then Returns (similar_pairs ++ [(i, j, similarity)])
  else Returns similar_pairs.

Definition find_similar_pairs (texts : list string) (threshold : Q) (method : string)
    : outcome (list (nat * nat * Q)) :=
  similar_pairs ←
    for_each (range 0 (length texts))
      (fun i similar_pairs =>
         for_each (range (i + 1) (length texts))
           (similar_pair_step texts threshold method i) similar_pairs)
      [];
  Returns (sort_by_key_desc snd similar_pairs).

(** A pair of indices [find_similar_pairs] reports with the score [s]. *)
Definition similar_pair (texts : list string) (threshold : Q) (method : string)
    (i j : nat) (s : Q) : Prop :=
  i < j /\
  exists text_i text_j,
    texts !! i = Some text_i /\ texts !! j = Some text_j /\
    calculate_text_similarity tfidf_cosine text_i text_j method = Returns s /\
    (threshold <= s)%Q.

(** What the cell [(i, j)] of the similarity matrix holds. *)
Definition matrix_cell_value (texts : list string) (method : string)
    (i j : nat) (v : Q) : Prop :=
  if decide (i = j) then v = 1%Q
  else exists text_i text_j,
         texts !! i = Some text_i /\ texts !! j = Some text_j /\
         calculate_text_similarity tfidf_cosine text_i text_j method = Returns v.

End SimilarityTables.

(** The invariant of the loops of [calculate_similarity_matrix]. *)

(** The cells before [(i, j)] in the order of the two loops. *)
Definition visited (i j i' j' : nat) : Prop := i' < i \/ (i' = i /\ j' < j).

Section ScoresInvariant.

Variable tfidf_cosine : string -> string -> outcome Q.
Variable texts : list string.
Variable method : string.

(** The array has its shape, and the visited cells hold their values. *)
Definition scores_inv (i j : nat) (a : Array2.t) : Prop :=
  length a = length texts /\
  (forall k row, a !! k = Some row -> length row = length texts) /\
  forall i' j', i' < length texts -> j' < length texts ->
    exists v, Array2.cell a i' j' = Some v /\
              (visited i j i' j' -> matrix_cell_value tfidf_cosine texts method i' j' v).

End ScoresInvariant.

(** ** [utils/text_similarity.py]: [extract_keywords] *)

(** [re.findall(r'\b\w+\b', s)]: the maximal runs of word characters.
    [cur] is the run being read. *)
Fixpoint findall_words_from (cur : string) (s : string) : list string :=
  match s with
  | EmptyString => if String.eqb cur EmptyString then [] else [cur]
  | String c s' =>
      if PyStr.isword c
      then findall_words_from (cur ++ String c EmptyString)%string s'
      else (if String.eqb cur EmptyString then findall_words_from EmptyString s'
            else cur :: findall_words_from EmptyString s')
  end.

Definition findall_words (s : string) : list string :=
  findall_words_from EmptyString s.

(** [Counter(words)], as the list of its items: the words in the order of
    their first occurrence, each with its count. *)
Fixpoint counter_add (word : string) (counts : list (string * nat))
    : list (string * nat) :=
  match counts with
  | [] => [(word, 1)]
  | (w, c) :: rest =>
      if String.eqb w word then (w, S c) :: rest
      else (w, c) :: counter_add word rest
  end.

Definition Counter (words : list string) : list (string * nat) :=
  fold_left (fun counts word => counter_add word counts) words [].

(** The set literal [stop_words]. *)
Definition stop_words : list string :=
  ["the"; "a"; "an"; "and"; "or"; "but"; "in"; "on"; "at"; "to"; "for"; "of";
   "with"; "by"; "is"; "are"; "was"; "were"; "be"; "been"; "being"; "have";
   "has"; "had"; "do"; "does"; "did"; "will"; "would"; "could"; "should";
   "may"; "might"; "must"; "can"; "this"; "that"; "these"; "those"; "i";
   "you"; "he"; "she"; "it"; "we"; "they"; "me"; "him"; "her"; "us"; "them";
   "my"; "your"; "his"; "her"; "its"; "our"; "their"; "mine"; "yours"; "his";
   "hers"; "ours"; "theirs"]%string.

(** The slice [l[:k]] for an integer [k]: the first [k] elements, and all
    but the last [-k] when [k] is negative. *)
Definition slice_to {A : Type} (l : list A) (k : Z) : list A :=
  if (0 <=? k)%Z then take (Z.to_nat k) l
  else take (length l - Z.to_nat (- k)) l.

Definition extract_keywords (text : string) (max_keywords : Z) : list string :=
  let words := findall_words (PyStr.lower text) in
  let word_counts := Counter words in
  let filtered_words :=
    filter (fun wc => ~ In (fst wc) stop_words /\ 2 < String.length (fst wc))
      word_counts in
  map fst
    (slice_to (sort_by_key_desc (fun wc => inject_Z (Z.of_nat (snd wc))) filtered_words)
       max_keywords).

(** The number of occurrences of [word] in [words]. *)
Definition occurrences (word : string) (words : list string) : nat :=
  length (filter (fun w => w = word) words).

(** ** [video_processor.py]: [extract_frames] and [filter_frames_by_quality] *)

(** The fields of [VideoConfig] that [extract_frames] reads for its control
    flow. *)
Record VideoConfig : Type := {
  cfg_fps : Z;
  max_frames : Z;
  skip_blurry : bool
}.

(** [int(x)] for a float: truncation towards zero. *)
Definition int_of_Q (x : Q) : Z :=
  if Qlt_le_dec x 0 then (- Qfloor (- x))%Z else Qfloor x.

Section ExtractFrames.

(** A decoded video frame; the blur test of [_is_blurry] on the processed
    frame; the size of the saved image; and the path the frame numbered [k]
    is saved under. *)
Variable raw : Type.
Variable is_blurry : raw -> bool.
Variable saved_size : raw -> Z * Z.
Variable frame_path : nat -> string.

(** The [while] loop of [extract_frames].  [reads] are the frames [cap.read()]
    still has to deliver; after them it reports failure and the loop
    breaks. *)
Fixpoint extract_loop (config : VideoConfig) (frame_interval : Z) (video_fps : Q)
    (reads : list raw) (frame_count extracted_count : nat) (frames : list Frame)
    : outcome (list Frame) :=
  if negb (Z.of_nat extracted_count <? max_frames config)%Z then Returns frames
  else
    match reads with
    | [] => Returns frames
    | frame :: rest =>
        if (frame_interval =? 0)%Z then Raises "ZeroDivisionError"
        else if (Z.of_nat frame_count mod frame_interval =? 0)%Z
        then
          if skip_blurry config && is_blurry frame
          then extract_loop config frame_interval video_fps rest
                 (frame_count + 1) extracted_count frames
          else if Qeq_bool video_fps 0 then Raises "ZeroDivisionError"
          else
            let frame_obj :=
              {| frame_id := Z.of_nat extracted_count;
                 image_path := frame_path extracted_count;
                 timestamp := inject_Z (Z.of_nat frame_count) / video_fps;
                 text_content := EmptyString;
                 frame_confidence := 1;
                 frame_size := saved_size frame |} in
            extract_loop config frame_interval video_fps rest
              (frame_count + 1) (extracted_count + 1) (frames ++ [frame_obj])
        else extract_loop config frame_interval video_fps rest
               (frame_count + 1) extracted_count frames
    end.

(** [extract_frames].  [video] is what [cv2.VideoCapture] finds at the path:
    nothing that opens, or a frame rate and the frames. *)
Definition extract_frames (config : VideoConfig) (video : option (Q * list raw))
    (fps : option Z) : outcome (list Frame) :=
  let fps := match fps with Some f => f | None => cfg_fps config end in
  match video with
  | None => Raises "ValueError"
  | Some (video_fps, reads) =>
      let frame_interval :=
        if (0 <? fps)%Z then int_of_Q (video_fps / inject_Z fps) else 1%Z in
      extract_loop config frame_interval video_fps reads 0 0 []
  end.

End ExtractFrames.

(** [filter_frames_by_quality]. *)
Definition filter_frames_by_quality (frames : list Frame) (min_confidence : Q)
    : list Frame :=
  filter (fun f => Qle_bool min_confidence (frame_confidence f) = true) frames.

(** ** [main.py]: the frames of the [frames] command *)

(** The fields above in the configuration of [VideoProcessor()]. *)
Definition default_config : VideoConfig :=
  {| cfg_fps := 1; max_frames := 1000; skip_blurry := true |}.

Section FramesCommand.

Variable raw : Type.
Variable is_blurry : raw -> bool.
Variable saved_size : raw -> Z * Z.
Variable frame_path : nat -> string.
Variable image : Type.
Variable imread : string -> option image.
Variable resized_ssim : image -> image -> outcome Q.

(** The frames that [frames] goes on to save: those of [extract_frames],
    deduplicated with the default threshold under [--dedup]. *)
Definition frames_command (video : option (Q * list raw)) (fps : Z) (dedup : bool)
    : outcome (list Frame) :=
  frames ← extract_frames raw is_blurry saved_size frame_path default_config video
              (Some fps);
  Returns (if dedup
           then deduplicate_frames image imread resized_ssim frames default_threshold
           else frames).

End FramesCommand.

(** * Definitions used to state the properties *)

(** ** The Levenshtein distance *)

(** The classic dynamic-programming recurrence, from the specification:
    [lev_prefix a b i j] is the distance between the first [i] characters of
    [a] and the first [j] characters of [b]; a deletion, an insertion and a
    substitution cost 1 each, and matching characters cost 0. *)
Definition subst_cost (a b : list ascii) (i j : nat) : nat :=
  if decide (a !! i = b !! j) then 0 else 1.

Fixpoint lev_prefix (a b : list ascii) (i : nat) {struct i} : nat -> nat :=
  match i with
  | 0 => fun j => j
  | S i' =>
      fix row (j : nat) {struct j} : nat :=
        match j with
        | 0 => S i'
        | S j' =>
            Nat.min (lev_prefix a b i' (S j') + 1)
              (Nat.min (row j' + 1) (lev_prefix a b i' j' + subst_cost a b i' j'))
        end
  end.

Definition levenshtein_distance (a b : string) : nat :=
  lev_prefix (list_ascii_of_string a) (list_ascii_of_string b)
    (String.length a) (String.length b).

(** The distance of the recurrence between two whole lists. *)
Definition lev (a b : list ascii) : nat := lev_prefix a b (length a) (length b).

(** [edit_script a b n]: [a] is turned into [b], read from the left, by
    keeping characters and by [n] edits, each the substitution, the deletion
    or the insertion of one character. *)
Inductive edit_script : list ascii -> list ascii -> nat -> Prop :=
| edit_done : edit_script [] [] 0
| edit_keep c a b n : edit_script a b n -> edit_script (c :: a) (c :: b) n
| edit_substitute c d a b n : edit_script a b n -> edit_script (c :: a) (d :: b) (S n)
| edit_delete c a b n : edit_script a b n -> edit_script (c :: a) b (S n)
| edit_insert d a b n : edit_script a b n -> edit_script a (d :: b) (S n).

(** The same scripts read from the right, the direction of the matrix. *)
Inductive edit_script_r : list ascii -> list ascii -> nat -> Prop :=
| edit_r_done : edit_script_r [] [] 0
| edit_r_keep c a b n : edit_script_r a b n -> edit_script_r (a ++ [c]) (b ++ [c]) n
| edit_r_substitute c d a b n :
    edit_script_r a b n -> edit_script_r (a ++ [c]) (b ++ [d]) (S n)
| edit_r_delete c a b n : edit_script_r a b n -> edit_script_r (a ++ [c]) b (S n)
| edit_r_insert d a b n : edit_script_r a b n -> edit_script_r a (b ++ [d]) (S n).

(** ** Token sets and blocks *)

(** The literal reading of the quotient both methods are said to compute:
    the size of the intersection of the two sets of whitespace-separated
    tokens over the size of their union, and 0 when the union is empty. *)
Definition token_set_ratio (text1 text2 : string) : Q :=
  let tokens1 : gset string := list_to_set (PyStr.split text1) in
  let tokens2 : gset string := list_to_set (PyStr.split text2) in
  if decide (tokens1 ∪ tokens2 = ∅) then 0%Q
  else (Z.of_nat (size (tokens1 ∩ tokens2)) # Pos.of_nat (size (tokens1 ∪ tokens2)))%Q.

(** The blocks of [blocks] whose text is [s], in order. *)
Definition with_text (s : string) (blocks : list TextBlock) : list TextBlock :=
  filter (fun b => text b = s) blocks.

(** ** Invariants of the Levenshtein loops *)

(** The cell [dp[i][j]], when the two indices are in range. *)
Definition entry (dp : Matrix.t) (i j : nat) : option nat :=
  match dp !! i with
  | Some row => row !! j
  | None => None
  end.

Section MatrixInvariants.

Variables text1 text2 : list ascii.

Local Abbreviation m := (length text1).
Local Abbreviation n := (length text2).
Local Abbreviation L := (lev_prefix text1 text2).

(** The cell [(i', j')] has been given its final value when the loops stand
    at [(i, j)]: the first row and column, the rows above [i], and row [i]
    left of [j]. *)
Definition filled (i j i' j' : nat) : Prop :=
  i' = 0 \/ j' = 0 \/ i' < i \/ (i' = i /\ j' < j).

(** Every cell exists, and the filled ones hold the distance between the
    prefixes. *)
Definition matrix_inv (i j : nat) (dp : Matrix.t) : Prop :=
  forall i' j', i' <= m -> j' <= n ->
    exists v, entry dp i' j' = Some v /\ (filled i j i' j' -> v = L i' j').

(** The first initialisation loop: column 0 up to row [k]. *)
Definition column_inv (k : nat) (dp : Matrix.t) : Prop :=
  forall i' j', i' <= m -> j' <= n ->
    exists v, entry dp i' j' = Some v /\ (j' = 0 -> i' < k -> v = i').

(** The second one: the whole column 0, and row 0 up to column [k]. *)
Definition row_inv (k : nat) (dp : Matrix.t) : Prop :=
  forall i' j', i' <= m -> j' <= n ->
    exists v, entry dp i' j' = Some v /\
      (j' = 0 -> v = i') /\ (i' = 0 -> j' < k -> v = j').

End MatrixInvariants.

(** ** Concrete inputs *)

(** A concrete instance of the image library for examples: an image is
    identified with the path it is read from, every path is readable, and
    two images score 1 when they are the same and 0 otherwise. *)
Module SampleImages.

Definition imread (path : string) : option string := Some path.

Definition resized_ssim (img1 img2 : string) : outcome Q :=
  if String.eqb img1 img2 then Returns 1%Q else Returns 0%Q.

Definition frame (i : Z) (path : string) : Frame :=
  {| frame_id := i; image_path := path; timestamp := inject_Z i;
     text_content := EmptyString; frame_confidence := 1; frame_size := (640, 480)%Z |}.

End SampleImages.

Module SampleBlocks.

Definition block (s : string) (c : Q) (frame : Z) : TextBlock :=
  {| text := s; confidence := c; bbox := (0, 0, 100, 50)%Z;
     source_frames := [inject_Z frame]; language := "en" |}.

End SampleBlocks.

Module SampleTfidf.

(** A stand-in for the library: equal texts score 1, different texts 1/2. *)
Definition tfidf_cosine (text1 text2 : string) : outcome Q :=
  if String.eqb text1 text2 then Returns 1%Q else Returns (1 # 2)%Q.


End SampleTfidf.

(** ** Definitions for the further properties *)

Section FrameSpread.

Variable image : Type.
Variable imread : string -> option image.
Variable resized_ssim : image -> image -> outcome Q.

(** No frame of [frames] exceeds the threshold against a frame that stands
    before it. *)
Definition spread (th : Q) (frames : list Frame) : Prop :=
  forall pre f post, frames = pre ++ f :: post ->
    forall u, In u pre ->
      (_calculate_frame_similarity image imread resized_ssim f u <= th)%Q.

End FrameSpread.

(** The cell [dp[m][n]] that the loops of [_levenshtein_similarity] leave
    in the matrix. *)
Definition computed_distance (a b : string) : option nat :=
  match levenshtein_matrix (list_ascii_of_string a) (list_ascii_of_string b) with
  | Returns dp => entry dp (String.length a) (String.length b)
  | Raises _ => None
  end.

(** ** More concrete inputs *)

(** A video for examples: a frame is a number, 0 for a blurred one; two
    frames a second.  The configuration is the default one of
    [VideoProcessor]. *)
Module SampleVideo.

Definition is_blurry (frame : nat) : bool := frame =? 0.

Definition saved_size (frame : nat) : Z * Z := (640, 480)%Z.

(** [f"frame_{k:06d}.jpg"] under the default [temp_dir]. *)
Definition frame_path (k : nat) : string :=
  let digits := str_of_nat k in
  ("./data/temp/frame_"
   ++ string_of_list_ascii (replicate (6 - String.length digits) "0"%char)
   ++ digits ++ ".jpg")%string.

Definition config : VideoConfig := default_config.

Definition video : option (Q * list nat) := Some (2%Q, [7; 8; 0; 9; 5]).

(** The frames at 0 s and at 2 s; the one at 1 s is blurred. *)
Definition frames : list Frame :=
  [ {| frame_id := 0; image_path := "./data/temp/frame_000000.jpg"; timestamp := 0 / 2;
       text_content := EmptyString; frame_confidence := 1; frame_size := (640, 480)%Z |};
    {| frame_id := 1; image_path := "./data/temp/frame_000001.jpg"; timestamp := 4 / 2;
       text_content := EmptyString; frame_confidence := 1; frame_size := (640, 480)%Z |} ].

End SampleVideo.

(** * Properties *)

(** ** Frame deduplication *)

Section FrameDeduplicationFacts.

Variable image : Type.
Variable imread : string -> option image.
Variable resized_ssim : image -> image -> outcome Q.

Local Abbreviation similarity := (_calculate_frame_similarity image imread resized_ssim).
Local Abbreviation scan := (scan_unique image imread resized_ssim).
Local Abbreviation loop := (dedup_loop image imread resized_ssim).
Local Abbreviation dedup := (deduplicate_frames image imread resized_ssim).
Local Abbreviation dedup_run := (deduplicate_frames_run image imread resized_ssim).

Lemma exceeds_spec (s th : Q) : exceeds s th = true <-> (th < s)%Q.
Proof.
  unfold exceeds. rewrite negb_true_iff.
  destruct (Qle_bool s th) eqn:E.
  - apply Qle_bool_iff in E. split; [discriminate | intros H].
    exfalso. exact (Qlt_not_le _ _ H E).
  - split; [intros _ | reflexivity].
    apply Qnot_le_lt. intros H. apply Qle_bool_iff in H. congruence.
Qed.

Lemma exceeds_false (s th : Q) : exceeds s th = false <-> (s <= th)%Q.
Proof.
  unfold exceeds. rewrite negb_false_iff. apply Qle_bool_iff.
Qed.

(** The flag the inner loop leaves: some retained frame is too similar. *)
Lemma scan_unique_flag th frame unique_frames :
  fst (scan th frame unique_frames)
  = existsb (fun u => exceeds (similarity frame u) th) unique_frames.
Proof.
  induction unique_frames as [|u rest IH]; simpl; [reflexivity|].
  destruct (exceeds (similarity frame u) th); simpl; [reflexivity|].
  destruct (scan th frame rest) as [d c]. simpl in *. exact IH.
Qed.

Lemma dedup_loop_app th l1 l2 unique_frames log :
  loop th (l1 ++ l2) unique_frames log
  = loop th l2 (fst (loop th l1 unique_frames log)) (snd (loop th l1 unique_frames log)).
Proof.
  revert unique_frames log.
  induction l1 as [|f l1 IH]; intros unique_frames log; simpl; [reflexivity|].
  destruct (scan th f unique_frames) as [d c].
  destruct d; apply IH.
Qed.

(** One more frame at the end of the input: it is dropped when the inner loop
    raised the flag, and appended otherwise. *)
Lemma dedup_snoc th first rest frame :
  dedup (first :: rest ++ [frame]) th
  = if existsb (fun u => exceeds (similarity frame u) th) (dedup (first :: rest) th)
    then dedup (first :: rest) th
    else dedup (first :: rest) th ++ [frame].
Proof.
  unfold deduplicate_frames, deduplicate_frames_run.
  rewrite dedup_loop_app. simpl.
  rewrite <- scan_unique_flag.
  destruct (scan th frame (fst (loop th rest [first] []))) as [d c].
  simpl. destruct d; reflexivity.
Qed.

Lemma dedup_loop_prefix th frames unique_frames log :
  exists tail, fst (loop th frames unique_frames log) = unique_frames ++ tail.
Proof.
  revert unique_frames log.
  induction frames as [|f frames IH]; intros unique_frames log; simpl.
  - exists []. by rewrite app_nil_r.
  - destruct (scan th f unique_frames) as [d c]. destruct d.
    + apply IH.
    + destruct (IH (unique_frames ++ [f]) (log ++ c)) as [tail ->].
      exists (f :: tail). by rewrite <- app_assoc.
Qed.

Lemma dedup_loop_sublist th frames unique_frames log seen :
  unique_frames `sublist_of` seen ->
  fst (loop th frames unique_frames log) `sublist_of` seen ++ frames.
Proof.
  revert unique_frames log seen.
  induction frames as [|f frames IH]; intros unique_frames log seen Hsub; simpl.
  - by rewrite app_nil_r.
  - replace (seen ++ f :: frames) with ((seen ++ [f]) ++ frames)
      by (by rewrite <- app_assoc).
    destruct (scan th f unique_frames) as [d c]. destruct d.
    + apply IH. by apply sublist_inserts_r.
    + apply IH. by apply sublist_app.
Qed.

(** C4, as the code has it: the first frame is always retained, and a frame
    arriving after the retained frames [kept] is dropped exactly when its
    similarity to some frame of [kept] (any of them, not only the last) is
    strictly greater than the threshold, and is appended to [kept] exactly
    when every such similarity is at most the threshold. *)
Theorem deduplicate_frames_greedy_strict (threshold : Q) (first : Frame)
    (rest : list Frame) (frame : Frame) :
  let kept := deduplicate_frames image imread resized_ssim (first :: rest) threshold in
  let result :=
    deduplicate_frames image imread resized_ssim (first :: rest ++ [frame]) threshold in
  (exists tail, kept = first :: tail) /\
  (result = kept <->
     exists u, In u kept /\
       (threshold < _calculate_frame_similarity image imread resized_ssim frame u)%Q) /\
  (result = kept ++ [frame] <->
     forall u, In u kept ->
       (_calculate_frame_similarity image imread resized_ssim frame u <= threshold)%Q).
Proof.
  cbv zeta. set (th := threshold).
  split; [|split].
  - unfold deduplicate_frames, deduplicate_frames_run.
    destruct (dedup_loop_prefix th rest [first] []) as [tail ->]. by exists tail.
  - rewrite dedup_snoc.
    destruct (existsb _ (dedup (first :: rest) th)) eqn:E.
    + split; [intros _ | reflexivity].
      apply existsb_exists in E as (u & Hu & Hx).
      exists u. split; [exact Hu | by apply exceeds_spec].
    + split.
      * intros H. apply (f_equal length) in H. rewrite length_app in H.
        simpl in H. lia.
      * intros (u & Hu & Hlt). apply exceeds_spec in Hlt.
        assert (existsb (fun u => exceeds (similarity frame u) th)
                  (dedup (first :: rest) th) = true) as E'
          by (apply existsb_exists; eauto).
        congruence.
  - rewrite dedup_snoc.
    destruct (existsb _ (dedup (first :: rest) th)) eqn:E.
    + split.
      * intros H. apply (f_equal length) in H. rewrite length_app in H.
        simpl in H. lia.
      * intros Hall. apply existsb_exists in E as (u & Hu & Hx).
        apply exceeds_spec in Hx. specialize (Hall u Hu).
        exfalso. exact (Qlt_not_le _ _ Hx Hall).
    + split; [intros _ | reflexivity].
      intros u Hu. apply exceeds_false.
      destruct (exceeds (similarity frame u) th) eqn:Hx; [|reflexivity].
      assert (existsb (fun u => exceeds (similarity frame u) th)
                (dedup (first :: rest) th) = true) as E'
        by (apply existsb_exists; eauto).
      congruence.
Qed.

(** C9: the retained frames are a subsequence of the input, in the input's
    order; the empty input gives the empty output; a single frame is returned
    as it is, and no comparison is made for it. *)
Theorem deduplicate_frames_subsequence (threshold : Q) (frames : list Frame) :
  deduplicate_frames image imread resized_ssim frames threshold `sublist_of` frames /\
  deduplicate_frames_run image imread resized_ssim [] threshold = ([], []) /\
  (forall f, deduplicate_frames_run image imread resized_ssim [f] threshold = ([f], [])).
Proof.
  set (th := threshold).
  split; [|split; [reflexivity | intros f; reflexivity]].
  unfold deduplicate_frames, deduplicate_frames_run.
  destruct frames as [|first rest]; [constructor|].
  apply (dedup_loop_sublist th rest [first] [] [first]). reflexivity.
Qed.

End FrameDeduplicationFacts.

(** C4 as stated fails: with threshold 1.0, a second frame of the same image
    compares at similarity 1.0, which is greater than or equal to the
    threshold, and it is retained. *)
Lemma deduplicate_frames_keeps_equal_to_threshold :
  (1 <= _calculate_frame_similarity string SampleImages.imread SampleImages.resized_ssim
          (SampleImages.frame 1 "shot.jpg") (SampleImages.frame 0 "shot.jpg"))%Q /\
  deduplicate_frames string SampleImages.imread SampleImages.resized_ssim
    [SampleImages.frame 0 "shot.jpg"; SampleImages.frame 1 "shot.jpg"] 1
  = [SampleImages.frame 0 "shot.jpg"; SampleImages.frame 1 "shot.jpg"].
Proof.
  split; [vm_compute; discriminate | reflexivity].
Qed.

(** The specification's second scenario: the same image at 0, 1 and 2, another
    one at 3, the default threshold; the frames at 0 and 3 remain. *)
Example deduplicate_frames_scenario2 :
  deduplicate_frames string SampleImages.imread SampleImages.resized_ssim
    [SampleImages.frame 0 "a.jpg"; SampleImages.frame 1 "a.jpg";
     SampleImages.frame 2 "a.jpg"; SampleImages.frame 3 "b.jpg"] default_threshold
  = [SampleImages.frame 0 "a.jpg"; SampleImages.frame 3 "b.jpg"].
Proof. reflexivity. Qed.

(** A screen that comes back: the third frame is dropped for the first
    retained frame, not for the one before it, and the inner loop stops at
    that comparison. *)
Example deduplicate_frames_reverted_screen :
  deduplicate_frames_run string SampleImages.imread SampleImages.resized_ssim
    [SampleImages.frame 0 "a.jpg"; SampleImages.frame 1 "b.jpg";
     SampleImages.frame 2 "a.jpg"] default_threshold
  = ([SampleImages.frame 0 "a.jpg"; SampleImages.frame 1 "b.jpg"],
     [(SampleImages.frame 1 "b.jpg", SampleImages.frame 0 "a.jpg");
      (SampleImages.frame 2 "a.jpg", SampleImages.frame 0 "a.jpg")]).
Proof. reflexivity. Qed.

(** ** Text deduplication *)

Section TextDeduplicationFacts.

Lemma with_text_app s l1 l2 :
  with_text s (l1 ++ l2) = with_text s l1 ++ with_text s l2.
Proof. apply filter_app. Qed.

(** What the loop adds for the text [s]: nothing when [s] was seen, and
    else the first block of the remaining input that carries it. *)
Lemma deduplicate_loop_with_text s text_blocks seen_texts unique_blocks :
  with_text s (deduplicate_loop text_blocks seen_texts unique_blocks)
  = with_text s unique_blocks
    ++ (if bool_decide (s ∈ seen_texts) then []
        else take 1 (with_text s text_blocks)).
Proof.
  revert seen_texts unique_blocks.
  induction text_blocks as [|block rest IH]; intros seen_texts unique_blocks; simpl.
  - by destruct (bool_decide (s ∈ seen_texts)); rewrite app_nil_r.
  - unfold with_text at 3. rewrite filter_cons. fold (with_text s rest).
    destruct (bool_decide (text block ∉ seen_texts)) eqn:Hnew.
    + apply bool_decide_eq_true in Hnew.
      rewrite IH, with_text_app, <- app_assoc. f_equal.
      unfold with_text at 1. rewrite filter_cons, filter_nil.
      destruct (decide (text block = s)) as [Heq|Hne].
      * subst s.
        rewrite bool_decide_eq_true_2 by (by apply elem_of_union_l, elem_of_singleton).
        rewrite bool_decide_eq_false_2 by assumption. reflexivity.
      * simpl.
        destruct (bool_decide (s ∈ seen_texts)) eqn:Hs.
        -- apply bool_decide_eq_true in Hs.
           rewrite bool_decide_eq_true_2 by (by apply elem_of_union_r). reflexivity.
        -- apply bool_decide_eq_false in Hs.
           rewrite bool_decide_eq_false_2; [reflexivity|].
           rewrite elem_of_union, elem_of_singleton. intros [Heq|Hin]; [congruence | contradiction].
    + apply bool_decide_eq_false in Hnew.
      assert (text block ∈ seen_texts) as Hin
        by (destruct (decide (text block ∈ seen_texts)); [assumption | contradiction]).
      rewrite IH. f_equal.
      destruct (bool_decide (s ∈ seen_texts)) eqn:Hs; [reflexivity|].
      apply bool_decide_eq_false in Hs.
      destruct (decide (text block = s)) as [Heq|Hne]; [|reflexivity].
      subst s. contradiction.
Qed.

(** For each text, exactly the first block carrying it is kept. *)
Lemma deduplicate_texts_with_text self s text_blocks :
  with_text s (deduplicate_texts self text_blocks) = take 1 (with_text s text_blocks).
Proof.
  unfold deduplicate_texts. destruct text_blocks as [|b rest]; [reflexivity|].
  rewrite deduplicate_loop_with_text. reflexivity.
Qed.

(** The result does not depend on the instance: [self.config], the only
    place a threshold could be stored in, is never read. *)
Lemma deduplicate_texts_ignores_config self1 self2 text_blocks :
  deduplicate_texts self1 text_blocks = deduplicate_texts self2 text_blocks.
Proof. reflexivity. Qed.

(** C2, as the code has it: the empty text is deduplicated like any other
    text.  The blocks with empty text in the output are exactly the first
    block with empty text of the input (none when the input has none): it is
    kept, also when it is the first block, and every later one is dropped. *)
Theorem deduplicate_texts_empty_text_kept_once self text_blocks :
  with_text EmptyString (deduplicate_texts self text_blocks)
  = take 1 (with_text EmptyString text_blocks).
Proof. apply deduplicate_texts_with_text. Qed.

End TextDeduplicationFacts.

(** C2 as stated fails: a first block with empty text is kept. *)
Lemma deduplicate_texts_keeps_empty_first_block :
  deduplicate_texts (TextDeduplicator_init None)
    [SampleBlocks.block EmptyString (9 # 10) 0; SampleBlocks.block "x = 1" (9 # 10) 1]
  = [SampleBlocks.block EmptyString (9 # 10) 0; SampleBlocks.block "x = 1" (9 # 10) 1].
Proof. vm_compute. reflexivity. Qed.

(** ** The Levenshtein matrix computes the classic distance *)

Section LevenshteinRecurrence.

Variables a b : list ascii.

Lemma lev_prefix_0_l j : lev_prefix a b 0 j = j.
Proof. reflexivity. Qed.

Lemma lev_prefix_0_r i : lev_prefix a b i 0 = i.
Proof. destruct i; reflexivity. Qed.

Lemma lev_prefix_S i j :
  lev_prefix a b (S i) (S j)
  = Nat.min (lev_prefix a b i (S j) + 1)
      (Nat.min (lev_prefix a b (S i) j + 1) (lev_prefix a b i j + subst_cost a b i j)).
Proof. reflexivity. Qed.

Lemma subst_cost_le i j : subst_cost a b i j <= 1.
Proof. unfold subst_cost. destruct (decide _); lia. Qed.

(** Neighbouring cells differ by at most one. *)
Lemma lev_prefix_step_down i j : lev_prefix a b (S i) j <= lev_prefix a b i j + 1.
Proof.
  destruct j as [|j]; [rewrite !lev_prefix_0_r; lia|].
  rewrite lev_prefix_S. lia.
Qed.

Lemma lev_prefix_step_right i j : lev_prefix a b i (S j) <= lev_prefix a b i j + 1.
Proof.
  destruct i as [|i]; [rewrite !lev_prefix_0_l; lia|].
  rewrite lev_prefix_S. lia.
Qed.

Lemma lev_prefix_back_down i j : lev_prefix a b i j <= lev_prefix a b (S i) j + 1.
Proof.
  induction j as [|j IH]; [rewrite !lev_prefix_0_r; lia|].
  rewrite lev_prefix_S.
  pose proof (lev_prefix_step_right i j). lia.
Qed.

Lemma lev_prefix_back_right i j : lev_prefix a b i j <= lev_prefix a b i (S j) + 1.
Proof.
  induction i as [|i IH]; [rewrite !lev_prefix_0_l; lia|].
  rewrite lev_prefix_S.
  pose proof (lev_prefix_step_down i j). lia.
Qed.

(** The form the code uses: the diagonal cell when the characters match, and
    one more than the least of the three neighbours otherwise. *)
Lemma lev_prefix_match i j :
  a !! i = b !! j -> lev_prefix a b (S i) (S j) = lev_prefix a b i j.
Proof.
  intros Heq. rewrite lev_prefix_S. unfold subst_cost.
  rewrite decide_True by assumption.
  pose proof (lev_prefix_back_right i j).
  pose proof (lev_prefix_back_down i j).
  pose proof (lev_prefix_step_right i j).
  pose proof (lev_prefix_step_down i j).
  pose proof (lev_prefix_step_down i (S j)).
  lia.
Qed.

Lemma lev_prefix_mismatch i j :
  a !! i <> b !! j ->
  lev_prefix a b (S i) (S j)
  = 1 + Nat.min (lev_prefix a b i (S j))
          (Nat.min (lev_prefix a b (S i) j) (lev_prefix a b i j)).
Proof.
  intros Hne. rewrite lev_prefix_S. unfold subst_cost.
  rewrite decide_False by assumption. lia.
Qed.

End LevenshteinRecurrence.

Arguments lev_prefix : simpl never.

Lemma lev_prefix_sym a b i j : lev_prefix a b i j = lev_prefix b a j i.
Proof.
  revert j. induction i as [|i IHi]; intros j.
  - rewrite lev_prefix_0_l, lev_prefix_0_r. reflexivity.
  - induction j as [|j IHj].
    + rewrite lev_prefix_0_l, lev_prefix_0_r. reflexivity.
    + rewrite !lev_prefix_S, IHj, !IHi.
      assert (subst_cost a b i j = subst_cost b a j i) as ->.
      { unfold subst_cost. destruct (decide (a !! i = b !! j));
          destruct (decide (b !! j = a !! i)); congruence. }
      lia.
Qed.

Lemma lev_prefix_diag a i : lev_prefix a a i i = 0.
Proof.
  induction i as [|i IH]; [reflexivity|].
  rewrite lev_prefix_match by reflexivity. exact IH.
Qed.

(** *** Loops over a range *)

Lemma for_each_range_invariant {St : Type} (P : nat -> St -> Prop)
    (body : nat -> St -> outcome St) (lo hi : nat) (s : St) :
  lo <= hi ->
  P lo s ->
  (forall i s, lo <= i < hi -> P i s -> exists s', body i s = Returns s' /\ P (S i) s') ->
  exists s', for_each (range lo hi) body s = Returns s' /\ P hi s'.
Proof.
  unfold range. intros Hle.
  remember (hi - lo) as k eqn:Hk.
  revert lo s Hle Hk. induction k as [|k IH]; intros lo s Hle Hk Hinit Hstep.
  - assert (hi = lo) as -> by lia. exists s. split; [reflexivity | assumption].
  - simpl. destruct (Hstep lo s) as (s1 & Hbody & HP1); [lia | assumption |].
    rewrite Hbody. simpl.
    apply (IH (S lo) s1); [lia | lia | assumption |].
    intros i s2 Hi. apply Hstep. lia.
Qed.

(** *** Cells of the matrix *)

Lemma get_entry dp i j v : entry dp i j = Some v -> Matrix.get dp i j = Returns v.
Proof.
  unfold entry, Matrix.get. destruct (dp !! i) as [row|]; [|discriminate].
  intros ->. reflexivity.
Qed.

Lemma set_entry dp i j v :
  is_Some (entry dp i j) ->
  exists dp', Matrix.set dp i j v = Returns dp' /\
    forall i' j', entry dp' i' j'
                  = if decide (i' = i /\ j' = j) then Some v else entry dp i' j'.
Proof.
  unfold entry, Matrix.set. intros [w Hw].
  destruct (dp !! i) as [row|] eqn:Hrow; [|discriminate].
  pose proof (lookup_lt_Some _ _ _ Hw) as Hj.
  pose proof (lookup_lt_Some _ _ _ Hrow) as Hi.
  rewrite decide_True by assumption.
  eexists. split; [reflexivity|].
  intros i' j'. destruct (decide (i' = i)) as [->|Hne].
  - rewrite list_lookup_insert_eq by assumption.
    destruct (decide (j' = j)) as [->|Hnej].
    + rewrite decide_True by auto. by apply list_lookup_insert_eq.
    + rewrite decide_False by tauto. rewrite Hrow.
      by apply list_lookup_insert_ne.
  - rewrite decide_False by tauto.
    rewrite list_lookup_insert_ne by auto. reflexivity.
Qed.

Lemma entry_zeros rows cols i j :
  i < rows -> j < cols -> entry (Matrix.zeros rows cols) i j = Some 0.
Proof.
  intros Hi Hj. unfold entry, Matrix.zeros.
  rewrite lookup_replicate_2 by assumption. by apply lookup_replicate_2.
Qed.

Lemma char_at_in_range (text : list ascii) i :
  i < length text -> exists c, text !! i = Some c /\ char_at text i = Returns c.
Proof.
  intros Hi. destruct (lookup_lt_is_Some_2 text i Hi) as [c Hc].
  exists c. split; [assumption|]. unfold char_at. by rewrite Hc.
Qed.

Section LevenshteinMatrix.

Variables text1 text2 : list ascii.

Local Abbreviation m := (length text1).
Local Abbreviation n := (length text2).
Local Abbreviation L := (lev_prefix text1 text2).
Local Abbreviation matrix_inv := (matrix_inv text1 text2).
Local Abbreviation column_inv := (column_inv text1 text2).
Local Abbreviation row_inv := (row_inv text1 text2).

Lemma column_loop :
  exists dp, for_each (range 0 (m + 1)) (fun i dp => Matrix.set dp i 0 i)
               (Matrix.zeros (m + 1) (n + 1)) = Returns dp
             /\ column_inv (m + 1) dp.
Proof.
  apply (for_each_range_invariant column_inv); [lia | |].
  - intros i' j' Hi Hj. exists 0. split; [apply entry_zeros; lia | lia].
  - intros i dp Hi Hinv.
    destruct (Hinv i 0) as (w & Hw & _); [lia | lia |].
    destruct (set_entry dp i 0 i) as (dp' & Hset & Hentries); [by eexists|].
    exists dp'. split; [exact Hset|].
    intros i' j' Hi' Hj'. rewrite Hentries.
    destruct (decide (i' = i /\ j' = 0)) as [[-> ->]|Hne].
    + exists i. split; [reflexivity | auto].
    + destruct (Hinv i' j' Hi' Hj') as (v & Hv & Hcol).
      exists v. split; [exact Hv|]. intros -> Hlt. apply Hcol; [reflexivity | lia].
Qed.

Lemma row_loop dp0 :
  column_inv (m + 1) dp0 ->
  exists dp, for_each (range 0 (n + 1)) (fun j dp => Matrix.set dp 0 j j) dp0 = Returns dp
             /\ row_inv (n + 1) dp.
Proof.
  intros Hcol.
  apply (for_each_range_invariant row_inv); [lia | |].
  - intros i' j' Hi Hj. destruct (Hcol i' j' Hi Hj) as (v & Hv & Hc).
    exists v. split; [exact Hv|]. split; [intros ->; apply Hc; [reflexivity | lia] | lia].
  - intros j dp Hj Hinv.
    destruct (Hinv 0 j) as (w & Hw & _); [lia | lia |].
    destruct (set_entry dp 0 j j) as (dp' & Hset & Hentries); [by eexists|].
    exists dp'. split; [exact Hset|].
    intros i' j' Hi' Hj'. rewrite Hentries.
    destruct (decide (i' = 0 /\ j' = j)) as [[-> ->]|Hne].
    + exists j. split; [reflexivity|]. split; [intros ->; reflexivity | reflexivity].
    + destruct (Hinv i' j' Hi' Hj') as (v & Hv & Hc0 & Hr0).
      exists v. split; [exact Hv|]. split; [exact Hc0|].
      intros -> Hlt. apply Hr0; [reflexivity | lia].
Qed.

Lemma row_inv_matrix_inv dp : row_inv (n + 1) dp -> matrix_inv 1 1 dp.
Proof.
  intros Hinv i' j' Hi Hj. destruct (Hinv i' j' Hi Hj) as (v & Hv & Hc0 & Hr0).
  exists v. split; [exact Hv|].
  intros [-> | [-> | [Hlt | [-> Hlt]]]].
  - rewrite lev_prefix_0_l. apply Hr0; [reflexivity | lia].
  - rewrite lev_prefix_0_r. by apply Hc0.
  - assert (i' = 0) as -> by lia. rewrite lev_prefix_0_l. apply Hr0; [reflexivity | lia].
  - assert (j' = 0) as -> by lia. rewrite lev_prefix_0_r. by apply Hc0.
Qed.

(** The body of the inner loop fills one more cell of row [i]. *)
Lemma levenshtein_cell_step i j dp :
  1 <= i <= m -> 1 <= j <= n ->
  matrix_inv i j dp ->
  exists dp', levenshtein_cell text1 text2 i j dp = Returns dp' /\ matrix_inv i (S j) dp'.
Proof.
  intros Hi Hj Hinv.
  destruct i as [|i]; [lia|]. destruct j as [|j]; [lia|].
  unfold levenshtein_cell. simpl Nat.sub. rewrite !Nat.sub_0_r.
  destruct (char_at_in_range text1 i) as (c1 & Hc1 & ->); [lia|].
  destruct (char_at_in_range text2 j) as (c2 & Hc2 & ->); [lia|].
  simpl.
  destruct (Hinv i j) as (diag & Hdiag & Vdiag); [lia | lia |].
  destruct (Hinv i (S j)) as (up & Hup & Vup); [lia | lia |].
  destruct (Hinv (S i) j) as (left & Hleft & Vleft); [lia | lia |].
  destruct (Hinv (S i) (S j)) as (old & Hold & _); [lia | lia |].
  rewrite Vdiag in Hdiag by (unfold filled; lia).
  rewrite Vup in Hup by (unfold filled; lia).
  rewrite Vleft in Hleft by (unfold filled; lia).
  clear Vdiag Vup Vleft.
  assert (forall v, exists dp', Matrix.set dp (S i) (S j) v = Returns dp' /\
            (v = L (S i) (S j) -> matrix_inv (S i) (S (S j)) dp')) as Hset.
  { intros v.
    destruct (set_entry dp (S i) (S j) v) as (dp' & Hset & Hentries); [by eexists|].
    exists dp'. split; [exact Hset|]. intros ->.
    intros i' j' Hi' Hj'. rewrite Hentries.
    destruct (decide (i' = S i /\ j' = S j)) as [[-> ->]|Hne].
    - eexists. split; reflexivity.
    - destruct (Hinv i' j' Hi' Hj') as (v & Hv & Hval).
      exists v. split; [exact Hv|]. intros Hfilled. apply Hval.
      unfold filled in *. lia. }
  destruct (decide (c1 = c2)) as [Heq|Hne].
  - rewrite (get_entry _ _ _ _ Hdiag). simpl.
    destruct (Hset (L i j)) as (dp' & -> & Hdp'). exists dp'.
    split; [reflexivity|]. apply Hdp'.
    symmetry. apply lev_prefix_match. congruence.
  - rewrite (get_entry _ _ _ _ Hup). simpl.
    rewrite (get_entry _ _ _ _ Hleft). simpl.
    rewrite (get_entry _ _ _ _ Hdiag). simpl.
    destruct (Hset (1 + Nat.min (L i (S j)) (Nat.min (L (S i) j) (L i j))))
      as (dp' & Hrun & Hdp').
    exists dp'. split; [exact Hrun|]. apply Hdp'.
    symmetry. apply lev_prefix_mismatch. congruence.
Qed.

Lemma levenshtein_row_step i dp :
  1 <= i <= m ->
  matrix_inv i 1 dp ->
  exists dp', for_each (range 1 (n + 1)) (levenshtein_cell text1 text2 i) dp = Returns dp'
              /\ matrix_inv (S i) 1 dp'.
Proof.
  intros Hi Hinv.
  destruct (for_each_range_invariant (matrix_inv i)
              (levenshtein_cell text1 text2 i) 1 (n + 1) dp)
    as (dp' & Hrun & Hend); [lia | exact Hinv | |].
  - intros j s Hj Hs. apply levenshtein_cell_step; [lia | lia | exact Hs].
  - exists dp'. split; [exact Hrun|].
    intros i' j' Hi' Hj'. destruct (Hend i' j' Hi' Hj') as (v & Hv & Hval).
    exists v. split; [exact Hv|]. intros Hfilled. apply Hval.
    unfold filled in *. lia.
Qed.

(** The three loops return, and leave the distance between the prefixes in
    every cell. *)
Lemma levenshtein_matrix_spec :
  exists dp, levenshtein_matrix text1 text2 = Returns dp /\
    forall i j, i <= m -> j <= n -> entry dp i j = Some (L i j).
Proof.
  unfold levenshtein_matrix.
  destruct column_loop as (dp1 & -> & Hcol). simpl.
  destruct (row_loop dp1 Hcol) as (dp2 & -> & Hrow). simpl.
  destruct (for_each_range_invariant (fun i => matrix_inv i 1)
              (fun i dp => for_each (range 1 (n + 1)) (levenshtein_cell text1 text2 i) dp)
              1 (m + 1) dp2)
    as (dp3 & Hrun & Hend); [lia | by apply row_inv_matrix_inv | |].
  - intros i s Hi Hs. apply levenshtein_row_step; [lia | exact Hs].
  - exists dp3. split; [exact Hrun|].
    intros i j Hi Hj. destruct (Hend i j Hi Hj) as (v & Hv & Hval).
    rewrite Hv. f_equal. apply Hval. unfold filled. lia.
Qed.

End LevenshteinMatrix.

(** ** The similarity helpers *)

Lemma length_list_ascii_of_string (s : string) :
  length (list_ascii_of_string s) = String.length s.
Proof. induction s as [|c s IH]; simpl; [reflexivity | by rewrite IH]. Qed.

(** [_levenshtein_similarity] returns, with the value of the closed formula. *)
Lemma levenshtein_similarity_value (a b : string) :
  _levenshtein_similarity a b
  = if Nat.max (String.length a) (String.length b) =? 0 then Returns 1%Q
    else Returns (1 - truediv (levenshtein_distance a b)
                        (Nat.max (String.length a) (String.length b)))%Q.
Proof.
  unfold _levenshtein_similarity, levenshtein_distance.
  destruct (levenshtein_matrix_spec (list_ascii_of_string a) (list_ascii_of_string b))
    as (dp & -> & Hcells).
  simpl. rewrite !length_list_ascii_of_string in *.
  destruct (Nat.max (String.length a) (String.length b) =? 0); [reflexivity|].
  rewrite (get_entry dp _ _ _ (Hcells _ _ (Nat.le_refl _) (Nat.le_refl _))).
  reflexivity.
Qed.

(** The case [max_len == 0] is the one of two empty strings. *)
Lemma levenshtein_similarity_nonempty (a b : string) :
  a <> EmptyString \/ b <> EmptyString ->
  _levenshtein_similarity a b
  = Returns (1 - truediv (levenshtein_distance a b)
                   (Nat.max (String.length a) (String.length b)))%Q.
Proof.
  intros Hne. rewrite levenshtein_similarity_value.
  destruct (Nat.max (String.length a) (String.length b) =? 0) eqn:E; [|reflexivity].
  apply Nat.eqb_eq in E. exfalso.
  destruct a as [|c a]; destruct b as [|d b]; simpl in E; try lia.
  destruct Hne; congruence.
Qed.

Lemma levenshtein_distance_sym a b : levenshtein_distance a b = levenshtein_distance b a.
Proof. unfold levenshtein_distance. apply lev_prefix_sym. Qed.

Lemma levenshtein_distance_self a : levenshtein_distance a a = 0.
Proof. unfold levenshtein_distance. apply lev_prefix_diag. Qed.

Lemma levenshtein_similarity_sym a b :
  _levenshtein_similarity a b = _levenshtein_similarity b a.
Proof.
  rewrite !levenshtein_similarity_value.
  rewrite (Nat.max_comm (String.length b)), (levenshtein_distance_sym b a).
  reflexivity.
Qed.

Lemma truediv_self n : n <> 0 -> (truediv n n == 1)%Q.
Proof.
  intros Hn. unfold truediv. apply Qmult_inv_r.
  intros H. apply Qeq_alt in H. unfold Qcompare in H. simpl in H.
  rewrite Z.mul_1_r in H. apply Z.compare_eq in H. lia.
Qed.

Lemma truediv_zero n : (truediv 0 n == 0)%Q.
Proof. unfold truediv. simpl. apply Qmult_0_l. Qed.

Lemma levenshtein_similarity_self a : returns_score (_levenshtein_similarity a a) 1.
Proof.
  rewrite levenshtein_similarity_value, levenshtein_distance_self.
  destruct (_ =? 0); eexists; (split; [reflexivity|]); [reflexivity|].
  rewrite truediv_zero. reflexivity.
Qed.

Lemma word_set_empty text : word_set text = ∅ <-> PyStr.split text = [].
Proof.
  unfold word_set. split; [|intros ->; reflexivity].
  intros H. destruct (PyStr.split text) as [|w ws]; [reflexivity|].
  exfalso. assert (w ∈ (∅ : gset string)) as Hin
    by (rewrite <- H; simpl; by apply elem_of_union_l, elem_of_singleton).
  by apply not_elem_of_empty in Hin.
Qed.

Lemma jaccard_sym a b : _jaccard_similarity a b = _jaccard_similarity b a.
Proof.
  unfold _jaccard_similarity. cbv zeta.
  set (A := word_set a). set (B := word_set b).
  assert (B ∩ A = A ∩ B) as -> by apply intersection_comm_L.
  assert (B ∪ A = A ∪ B) as -> by apply union_comm_L.
  reflexivity.
Qed.

Lemma word_overlap_sym a b : _word_overlap_similarity a b = _word_overlap_similarity b a.
Proof.
  unfold _word_overlap_similarity. cbv zeta.
  rewrite (orb_comm (bool_decide (PyStr.split b = []))).
  set (A := list_to_set (PyStr.split a) : gset string).
  set (B := list_to_set (PyStr.split b) : gset string).
  assert (B ∩ A = A ∩ B) as -> by apply intersection_comm_L.
  assert (B ∪ A = A ∪ B) as -> by apply union_comm_L.
  reflexivity.
Qed.

Lemma truediv_Qmake a b : b <> 0 -> (truediv a b == Z.of_nat a # Pos.of_nat b)%Q.
Proof.
  intros Hb. rewrite Qmake_Qdiv. unfold truediv.
  replace (Z.pos (Pos.of_nat b)) with (Z.of_nat b); [reflexivity|].
  destruct b as [|b]; [contradiction|].
  rewrite <- Pos.of_nat_succ, Zpos_P_of_succ_nat, Nat2Z.inj_succ. reflexivity.
Qed.

Lemma jaccard_is_token_set_ratio a b :
  (_jaccard_similarity a b == token_set_ratio a b)%Q.
Proof.
  unfold _jaccard_similarity, token_set_ratio, word_set.
  set (A := list_to_set (PyStr.split a) : gset string).
  set (B := list_to_set (PyStr.split b) : gset string).
  destruct (decide (A ∪ B = ∅)) as [He|Hne].
  - rewrite He, size_empty. reflexivity.
  - assert (size (A ∪ B) <> 0) as Hsz by (by intros H%size_empty_inv%leibniz_equiv).
    destruct (size (A ∪ B) =? 0) eqn:E; [apply Nat.eqb_eq in E; contradiction|].
    by apply truediv_Qmake.
Qed.

Lemma word_overlap_is_jaccard a b :
  (_word_overlap_similarity a b == _jaccard_similarity a b)%Q.
Proof.
  unfold _word_overlap_similarity, _jaccard_similarity, word_set.
  set (A := list_to_set (PyStr.split a) : gset string).
  set (B := list_to_set (PyStr.split b) : gset string).
  destruct (bool_decide (PyStr.split a = [])) eqn:Ea; simpl.
  { apply bool_decide_eq_true in Ea. apply word_set_empty in Ea.
    unfold word_set in Ea. fold A in Ea. rewrite Ea.
    assert (∅ ∩ B = ∅) as -> by apply intersection_empty_l_L.
    rewrite size_empty.
    destruct (size (∅ ∪ B) =? 0); [reflexivity|]. symmetry. apply truediv_zero. }
  destruct (bool_decide (PyStr.split b = [])) eqn:Eb; simpl.
  { apply bool_decide_eq_true in Eb. apply word_set_empty in Eb.
    unfold word_set in Eb. fold B in Eb. rewrite Eb.
    assert (A ∩ ∅ = ∅) as -> by apply intersection_empty_r_L.
    rewrite size_empty.
    destruct (size (A ∪ ∅) =? 0); [reflexivity|]. symmetry. apply truediv_zero. }
  destruct (size (A ∪ B)) as [|k]; reflexivity.
Qed.

Lemma jaccard_self a :
  (_jaccard_similarity a a == if bool_decide (PyStr.split a = []) then 0 else 1)%Q.
Proof.
  unfold _jaccard_similarity.
  cbv zeta. set (A := word_set a).
  assert (A ∩ A = A) as -> by apply intersection_idemp_L.
  assert (A ∪ A = A) as -> by apply union_idemp_L.
  subst A.
  destruct (bool_decide (PyStr.split a = [])) eqn:E.
  - apply bool_decide_eq_true in E. apply word_set_empty in E. rewrite E, size_empty.
    reflexivity.
  - apply bool_decide_eq_false in E.
    assert (size (word_set a) <> 0) as Hsz.
    { intros H%size_empty_inv%leibniz_equiv. by apply E, word_set_empty. }
    destruct (size (word_set a) =? 0) eqn:Ez; [apply Nat.eqb_eq in Ez; contradiction|].
    by apply truediv_self.
Qed.

(** ** Edit scripts *)

Section EditScripts.

#[local] Hint Constructors edit_script edit_script_r : core.

Lemma edit_script_snoc_keep c a b n :
  edit_script a b n -> edit_script (a ++ [c]) (b ++ [c]) n.
Proof. induction 1; simpl; auto. Qed.

Lemma edit_script_snoc_substitute c d a b n :
  edit_script a b n -> edit_script (a ++ [c]) (b ++ [d]) (S n).
Proof. induction 1; simpl; auto. Qed.

Lemma edit_script_snoc_delete c a b n :
  edit_script a b n -> edit_script (a ++ [c]) b (S n).
Proof. induction 1; simpl; auto. Qed.

Lemma edit_script_snoc_insert d a b n :
  edit_script a b n -> edit_script a (b ++ [d]) (S n).
Proof. induction 1; simpl; auto. Qed.

Lemma edit_script_of_r a b n : edit_script_r a b n -> edit_script a b n.
Proof.
  induction 1; auto using edit_script_snoc_keep, edit_script_snoc_substitute,
    edit_script_snoc_delete, edit_script_snoc_insert.
Qed.

Lemma edit_script_r_cons_keep c a b n :
  edit_script_r a b n -> edit_script_r (c :: a) (c :: b) n.
Proof.
  induction 1; rewrite ?app_comm_cons; auto.
  apply (edit_r_keep c [] []). constructor.
Qed.

Lemma edit_script_r_cons_substitute c d a b n :
  edit_script_r a b n -> edit_script_r (c :: a) (d :: b) (S n).
Proof.
  induction 1; rewrite ?app_comm_cons; auto.
  apply (edit_r_substitute c d [] []). constructor.
Qed.

Lemma edit_script_r_cons_delete c a b n :
  edit_script_r a b n -> edit_script_r (c :: a) b (S n).
Proof.
  induction 1; rewrite ?app_comm_cons; auto.
  apply (edit_r_delete c [] []). constructor.
Qed.

Lemma edit_script_r_cons_insert d a b n :
  edit_script_r a b n -> edit_script_r a (d :: b) (S n).
Proof.
  induction 1; rewrite ?app_comm_cons; auto.
  apply (edit_r_insert d [] []). constructor.
Qed.

Lemma edit_script_to_r a b n : edit_script a b n -> edit_script_r a b n.
Proof.
  induction 1; auto using edit_script_r_cons_keep, edit_script_r_cons_substitute,
    edit_script_r_cons_delete, edit_script_r_cons_insert.
Qed.

(** The recurrence looks at the characters before the two indices only. *)
Lemma lev_prefix_ext a b a' b' i j :
  (forall k, k < i -> a !! k = a' !! k) ->
  (forall k, k < j -> b !! k = b' !! k) ->
  lev_prefix a b i j = lev_prefix a' b' i j.
Proof.
  revert j. induction i as [|i IHi]; intros j Ha Hb; [reflexivity|].
  induction j as [|j IHj]; [reflexivity|].
  rewrite !lev_prefix_S.
  rewrite (IHi (S j)), IHj, (IHi j); auto.
  unfold subst_cost. rewrite (Ha i), (Hb j) by lia. reflexivity.
Qed.

Lemma lev_prefix_app_l a c b i j :
  i <= length a -> lev_prefix (a ++ c) b i j = lev_prefix a b i j.
Proof.
  intros Hi. apply lev_prefix_ext; [|reflexivity].
  intros k Hk. apply lookup_app_l. lia.
Qed.

Lemma lev_prefix_app_r a b d i j :
  j <= length b -> lev_prefix a (b ++ d) i j = lev_prefix a b i j.
Proof.
  intros Hj. apply lev_prefix_ext; [reflexivity|].
  intros k Hk. apply lookup_app_l. lia.
Qed.

Lemma lev_snoc_snoc a b c d :
  lev (a ++ [c]) (b ++ [d])
  = Nat.min (lev a (b ++ [d]) + 1)
      (Nat.min (lev (a ++ [c]) b + 1) (lev a b + if decide (c = d) then 0 else 1)).
Proof.
  unfold lev. rewrite !length_app. simpl length. rewrite !Nat.add_1_r, lev_prefix_S.
  rewrite !(lev_prefix_app_l a [c] _ (length a)) by lia.
  rewrite !(lev_prefix_app_r _ b [d] _ (length b)) by lia.
  unfold subst_cost.
  rewrite !(list_lookup_middle _ [] _ _ eq_refl).
  destruct (decide (c = d)) as [->|Hne].
  - rewrite decide_True by reflexivity. lia.
  - rewrite decide_False by congruence. lia.
Qed.

Lemma lev_snoc_l a c b : lev (a ++ [c]) b <= lev a b + 1.
Proof.
  unfold lev. rewrite length_app. simpl. rewrite Nat.add_1_r.
  etransitivity; [apply lev_prefix_step_down|].
  rewrite lev_prefix_app_l by lia. reflexivity.
Qed.

Lemma lev_snoc_r a b d : lev a (b ++ [d]) <= lev a b + 1.
Proof.
  unfold lev. rewrite length_app. simpl. rewrite Nat.add_1_r.
  etransitivity; [apply lev_prefix_step_right|].
  rewrite lev_prefix_app_r by lia. reflexivity.
Qed.

(** No script is cheaper than the distance of the recurrence. *)
Lemma lev_le_edit_script_r a b n : edit_script_r a b n -> lev a b <= n.
Proof.
  induction 1 as [|c a b n _ IH|c d a b n _ IH|c a b n _ IH|d a b n _ IH].
  - reflexivity.
  - rewrite lev_snoc_snoc, decide_True by reflexivity. lia.
  - rewrite lev_snoc_snoc. destruct (decide (c = d)); lia.
  - pose proof (lev_snoc_l a c b). lia.
  - pose proof (lev_snoc_r a b d). lia.
Qed.

(** Some script costs exactly the distance of the recurrence. *)
Lemma edit_script_r_lev a b : edit_script_r a b (lev a b).
Proof.
  revert b. induction a as [|c a IHa] using rev_ind; intros b.
  - induction b as [|d b IHb] using rev_ind; [constructor|].
    replace (lev [] (b ++ [d])) with (S (lev [] b))
      by (unfold lev; rewrite length_app, !lev_prefix_0_l; simpl; lia).
    by constructor.
  - induction b as [|d b IHb] using rev_ind.
    + replace (lev (a ++ [c]) []) with (S (lev a []))
        by (unfold lev; rewrite length_app, !lev_prefix_0_r; simpl; lia).
      by constructor.
    + rewrite lev_snoc_snoc.
      pose proof (IHa (b ++ [d])) as Hdel. pose proof (IHa b) as Hdiag.
      destruct (Nat.min_spec (lev a (b ++ [d]) + 1)
                  (Nat.min (lev (a ++ [c]) b + 1)
                     (lev a b + if decide (c = d) then 0 else 1))) as [[_ ->]|[_ ->]].
      { rewrite Nat.add_1_r. by constructor. }
      destruct (Nat.min_spec (lev (a ++ [c]) b + 1)
                  (lev a b + if decide (c = d) then 0 else 1)) as [[_ ->]|[_ ->]].
      { rewrite Nat.add_1_r. by constructor. }
      destruct (decide (c = d)) as [->|Hne].
      * rewrite Nat.add_0_r. by constructor.
      * rewrite Nat.add_1_r. by constructor.
Qed.

End EditScripts.

(** The distance of the recurrence is the least cost of an edit script: the
    Levenshtein distance. *)
Lemma levenshtein_distance_least (a b : string) :
  edit_script (list_ascii_of_string a) (list_ascii_of_string b) (levenshtein_distance a b) /\
  forall n, edit_script (list_ascii_of_string a) (list_ascii_of_string b) n ->
            levenshtein_distance a b <= n.
Proof.
  assert (levenshtein_distance a b = lev (list_ascii_of_string a) (list_ascii_of_string b))
    as -> by (unfold levenshtein_distance, lev; by rewrite !length_list_ascii_of_string).
  split.
  - apply edit_script_of_r, edit_script_r_lev.
  - intros n Hn. by apply lev_le_edit_script_r, edit_script_to_r.
Qed.

(** ** The similarity engine *)

Section TextSimilarityFacts.

Variable tfidf_cosine : string -> string -> outcome Q.

Local Abbreviation similarity := (calculate_text_similarity tfidf_cosine).

Lemma falsy_false (s : string) : s <> EmptyString -> PyStr.falsy s = false.
Proof. intros Hs. unfold PyStr.falsy. by apply String.eqb_neq. Qed.

(** What the engine returns for two non-empty inputs, by method. *)
Lemma similarity_nonempty text1 text2 method :
  text1 <> EmptyString -> text2 <> EmptyString ->
  similarity text1 text2 method
  = if String.eqb method "cosine"
    then Returns (_cosine_similarity tfidf_cosine (clean_text text1) (clean_text text2))
    else if String.eqb method "jaccard"
    then Returns (_jaccard_similarity (clean_text text1) (clean_text text2))
    else if String.eqb method "levenshtein"
    then _levenshtein_similarity (clean_text text1) (clean_text text2)
    else if String.eqb method "word_overlap"
    then Returns (_word_overlap_similarity (clean_text text1) (clean_text text2))
    else Returns (_cosine_similarity tfidf_cosine (clean_text text1) (clean_text text2)).
Proof.
  intros H1 H2. unfold calculate_text_similarity.
  rewrite (falsy_false _ H1), (falsy_false _ H2). reflexivity.
Qed.

Lemma similarity_empty_l text2 method :
  similarity EmptyString text2 method = Returns 0%Q.
Proof. reflexivity. Qed.

Lemma similarity_empty_r text1 method :
  similarity text1 EmptyString method = Returns 0%Q.
Proof.
  unfold calculate_text_similarity. destruct text1; reflexivity.
Qed.

(** The engine never raises. *)
Lemma similarity_returns text1 text2 method :
  exists s, similarity text1 text2 method = Returns s.
Proof.
  destruct (decide (text1 = EmptyString)) as [->|H1];
    [rewrite similarity_empty_l; eauto|].
  destruct (decide (text2 = EmptyString)) as [->|H2];
    [rewrite similarity_empty_r; eauto|].
  rewrite (similarity_nonempty _ _ _ H1 H2).
  repeat (destruct (String.eqb method _); [eauto|]); eauto.
  rewrite levenshtein_similarity_value. destruct (_ =? 0); eauto.
Qed.

(** C1, as the code has it: a method name outside the four names the engine
    tests for raises nothing; the engine returns the score of the cosine
    method for the same two texts. *)
Theorem unknown_method_falls_back_to_cosine text1 text2 method :
  ~ In method supported_methods ->
  calculate_text_similarity tfidf_cosine text1 text2 method = calculate_text_similarity tfidf_cosine text1 text2 "cosine" /\
  exists s, calculate_text_similarity tfidf_cosine text1 text2 method = Returns s.
Proof.
  intros Hm. split; [|apply similarity_returns].
  destruct (decide (text1 = EmptyString)) as [->|H1];
    [by rewrite !similarity_empty_l|].
  destruct (decide (text2 = EmptyString)) as [->|H2];
    [by rewrite !similarity_empty_r|].
  rewrite !(similarity_nonempty _ _ _ H1 H2).
  assert (String.eqb method "cosine" = false) as ->
    by (apply String.eqb_neq; intros ->; apply Hm; simpl; tauto).
  assert (String.eqb method "jaccard" = false) as ->
    by (apply String.eqb_neq; intros ->; apply Hm; simpl; tauto).
  assert (String.eqb method "levenshtein" = false) as ->
    by (apply String.eqb_neq; intros ->; apply Hm; simpl; tauto).
  assert (String.eqb method "word_overlap" = false) as ->
    by (apply String.eqb_neq; intros ->; apply Hm; simpl; tauto).
  reflexivity.
Qed.

(** C3, as the code has it: on two empty strings the engine returns 0.0
    under every method, the edit-distance method included; the value 1.0 is
    what the helper [_levenshtein_similarity] returns on two empty strings,
    and the Jaccard helper returns 0.0 on them. *)
Theorem empty_inputs_score_zero method :
  calculate_text_similarity tfidf_cosine EmptyString EmptyString method = Returns 0%Q /\
  _levenshtein_similarity EmptyString EmptyString = Returns 1%Q /\
  _jaccard_similarity EmptyString EmptyString = 0%Q.
Proof. split; [reflexivity | split; reflexivity]. Qed.

(** Under the three methods that do not call the library the engine is
    symmetric. *)
Lemma similarity_sym_without_library text1 text2 method :
  In method ["jaccard"; "levenshtein"; "word_overlap"]%string ->
  similarity text1 text2 method = similarity text2 text1 method.
Proof.
  intros Hm.
  destruct (decide (text1 = EmptyString)) as [->|H1];
    [by rewrite similarity_empty_l, similarity_empty_r|].
  destruct (decide (text2 = EmptyString)) as [->|H2];
    [by rewrite similarity_empty_l, similarity_empty_r|].
  rewrite (similarity_nonempty _ _ _ H1 H2), (similarity_nonempty _ _ _ H2 H1).
  simpl in Hm. destruct Hm as [<-|[<-|[<-|[]]]]; simpl.
  - by rewrite jaccard_sym.
  - apply levenshtein_similarity_sym.
  - by rewrite word_overlap_sym.
Qed.



(** C7, as the code has it: for a non-empty string compared with itself, the
    edit-distance method scores 1.0; the Jaccard and word-overlap methods
    score 1.0 when the cleaned text has at least one word and 0.0 when it
    has none; the cosine method scores what the library computes for the
    cleaned text against itself, and 0.0 when the library raises. *)
Theorem self_similarity text :
  text <> EmptyString ->
  returns_score (calculate_text_similarity tfidf_cosine text text "levenshtein") 1 /\
  returns_score (calculate_text_similarity tfidf_cosine text text "jaccard")
    (if bool_decide (PyStr.split (clean_text text) = []) then 0 else 1) /\
  returns_score (calculate_text_similarity tfidf_cosine text text "word_overlap")
    (if bool_decide (PyStr.split (clean_text text) = []) then 0 else 1) /\
  calculate_text_similarity tfidf_cosine text text "cosine"
  = Returns (match tfidf_cosine (clean_text text) (clean_text text) with
             | Returns s => s
             | Raises _ => 0%Q
             end).
Proof.
  intros Hne. rewrite !(similarity_nonempty _ _ _ Hne Hne). simpl.
  split; [apply levenshtein_similarity_self|].
  split; [eexists; split; [reflexivity | apply jaccard_self]|].
  split; [|reflexivity].
  eexists; split; [reflexivity|].
  rewrite word_overlap_is_jaccard. apply jaccard_self.
Qed.

(** C10: the Jaccard and the word-overlap helpers return the same score for
    every two texts, the size of the intersection of the two token sets over
    the size of their union and 0 when the union is empty; so do the two
    methods of the engine. *)
Theorem jaccard_word_overlap_agree text1 text2 :
  (_jaccard_similarity text1 text2 == token_set_ratio text1 text2)%Q /\
  (_word_overlap_similarity text1 text2 == token_set_ratio text1 text2)%Q /\
  exists s, returns_score (calculate_text_similarity tfidf_cosine text1 text2 "jaccard") s /\
            returns_score (calculate_text_similarity tfidf_cosine text1 text2 "word_overlap") s.
Proof.
  split; [apply jaccard_is_token_set_ratio|].
  split; [rewrite word_overlap_is_jaccard; apply jaccard_is_token_set_ratio|].
  destruct (decide (text1 = EmptyString)) as [->|H1].
  { exists 0%Q. rewrite !similarity_empty_l. split; eexists; split; reflexivity. }
  destruct (decide (text2 = EmptyString)) as [->|H2].
  { exists 0%Q. rewrite !similarity_empty_r. split; eexists; split; reflexivity. }
  rewrite !(similarity_nonempty _ _ _ H1 H2). simpl.
  exists (_jaccard_similarity (clean_text text1) (clean_text text2)).
  split; eexists; (split; [reflexivity|]); [reflexivity|].
  apply word_overlap_is_jaccard.
Qed.

End TextSimilarityFacts.

(** C5: for two strings that are not both empty, [_levenshtein_similarity]
    returns 1 minus the Levenshtein distance divided by the length of the
    longer string; the distance is the one of the classic recurrence
    ([levenshtein_distance]), which is the least number of substitutions,
    deletions and insertions of one character that turn the first string
    into the second. *)
Theorem levenshtein_similarity_formula (a b : string) :
  a <> EmptyString \/ b <> EmptyString ->
  _levenshtein_similarity a b
  = Returns (1 - inject_Z (Z.of_nat (levenshtein_distance a b))
                 / inject_Z (Z.of_nat (Nat.max (String.length a) (String.length b))))%Q /\
  edit_script (list_ascii_of_string a) (list_ascii_of_string b) (levenshtein_distance a b) /\
  (forall n, edit_script (list_ascii_of_string a) (list_ascii_of_string b) n ->
             levenshtein_distance a b <= n).
Proof.
  intros Hne. split; [|apply levenshtein_distance_least].
  by apply levenshtein_similarity_nonempty.
Qed.

(** The same through the engine: for two non-empty inputs whose cleaned
    texts are not both empty, the method [levenshtein] scores the cleaned
    texts by that formula. *)
Lemma similarity_levenshtein_formula (tfidf_cosine : string -> string -> outcome Q)
    (text1 text2 : string) :
  text1 <> EmptyString -> text2 <> EmptyString ->
  clean_text text1 <> EmptyString \/ clean_text text2 <> EmptyString ->
  calculate_text_similarity tfidf_cosine text1 text2 "levenshtein"
  = Returns (1 - truediv (levenshtein_distance (clean_text text1) (clean_text text2))
                   (Nat.max (String.length (clean_text text1))
                      (String.length (clean_text text2))))%Q.
Proof.
  intros H1 H2 Hne. rewrite (similarity_nonempty _ _ _ _ H1 H2). simpl.
  by apply levenshtein_similarity_nonempty.
Qed.

(** ** Concrete inputs *)

(** C1 as stated fails: the method name EXACT is not one the engine tests
    for, and the engine returns the score of the cosine method. *)
Lemma unknown_method_returns_cosine_score :
  ~ In "EXACT"%string supported_methods /\
  calculate_text_similarity SampleTfidf.tfidf_cosine "def foo():" "def bar():" "EXACT"
  = Returns (1 # 2)%Q /\
  calculate_text_similarity SampleTfidf.tfidf_cosine "def foo():" "def bar():" "cosine"
  = Returns (1 # 2)%Q.
Proof.
  split; [|split; vm_compute; reflexivity].
  simpl. intuition discriminate.
Qed.

(** The fallback of C1 on the same input. *)
Lemma unknown_method_falls_back_to_cosine_witness :
  ~ In "EXACT"%string supported_methods /\
  calculate_text_similarity SampleTfidf.tfidf_cosine "def foo():" "def bar():" "EXACT"
  = calculate_text_similarity SampleTfidf.tfidf_cosine "def foo():" "def bar():" "cosine" /\
  exists s,
    calculate_text_similarity SampleTfidf.tfidf_cosine "def foo():" "def bar():" "EXACT"
    = Returns s.
Proof.
  assert (~ In "EXACT"%string supported_methods) as H
    by (simpl; intuition discriminate).
  split; [exact H|].
  exact (unknown_method_falls_back_to_cosine SampleTfidf.tfidf_cosine
           "def foo():" "def bar():" "EXACT" H).
Defined.

(** C3 as stated fails: on two empty strings the edit-distance method
    returns 0.0, not 1.0. *)
Lemma empty_inputs_levenshtein_scores_zero :
  calculate_text_similarity SampleTfidf.tfidf_cosine EmptyString EmptyString "levenshtein"
  = Returns 0%Q /\ ~ (0 == 1)%Q.
Proof. split; [reflexivity | discriminate]. Qed.

(** C7 as stated fails: a string of one space is not empty, and its Jaccard
    score with itself is 0.0. *)
Lemma whitespace_self_similarity_is_zero :
  " "%string <> EmptyString /\
  calculate_text_similarity SampleTfidf.tfidf_cosine " " " " "jaccard" = Returns 0%Q /\
  ~ (0 == 1)%Q.
Proof. split; [discriminate | split; [vm_compute; reflexivity | discriminate]]. Qed.

(** The self-similarity of C7 for a line of code. *)
Lemma self_similarity_witness :
  "def foo():"%string <> EmptyString /\
  returns_score
    (calculate_text_similarity SampleTfidf.tfidf_cosine "def foo():" "def foo():" "levenshtein") 1 /\
  returns_score
    (calculate_text_similarity SampleTfidf.tfidf_cosine "def foo():" "def foo():" "jaccard")
    (if bool_decide (PyStr.split (clean_text "def foo():") = []) then 0 else 1) /\
  returns_score
    (calculate_text_similarity SampleTfidf.tfidf_cosine "def foo():" "def foo():" "word_overlap")
    (if bool_decide (PyStr.split (clean_text "def foo():") = []) then 0 else 1) /\
  calculate_text_similarity SampleTfidf.tfidf_cosine "def foo():" "def foo():" "cosine"
  = Returns (match SampleTfidf.tfidf_cosine (clean_text "def foo():") (clean_text "def foo():") with
             | Returns s => s
             | Raises _ => 0%Q
             end).
Proof.
  assert ("def foo():"%string <> EmptyString) as H by discriminate.
  split; [exact H|].
  exact (self_similarity SampleTfidf.tfidf_cosine "def foo():" H).
Defined.


(** The formula of C5 for the textbook pair. *)
Lemma levenshtein_similarity_formula_witness :
  ("kitten"%string <> EmptyString \/ "sitting"%string <> EmptyString) /\
  _levenshtein_similarity "kitten" "sitting"
  = Returns (1 - inject_Z (Z.of_nat (levenshtein_distance "kitten" "sitting"))
                 / inject_Z (Z.of_nat (Nat.max (String.length "kitten") (String.length "sitting"))))%Q /\
  edit_script (list_ascii_of_string "kitten") (list_ascii_of_string "sitting")
    (levenshtein_distance "kitten" "sitting") /\
  (forall n, edit_script (list_ascii_of_string "kitten") (list_ascii_of_string "sitting") n ->
             levenshtein_distance "kitten" "sitting" <= n).
Proof.
  assert ("kitten"%string <> EmptyString \/ "sitting"%string <> EmptyString) as H
    by (left; discriminate).
  split; [exact H|].
  exact (levenshtein_similarity_formula "kitten" "sitting" H).
Defined.

(** The distance and the score of the textbook pair. *)
Example levenshtein_kitten_sitting :
  levenshtein_distance "kitten" "sitting" = 3 /\
  _levenshtein_similarity "kitten" "sitting" = Returns (4 # 7)%Q.
Proof. split; vm_compute; reflexivity. Qed.

(** * Further properties *)

(** ** [deduplicate_texts]: what is kept *)

Section TextDeduplicationMore.

Lemma deduplicate_loop_sublist text_blocks seen_texts unique_blocks done :
  unique_blocks `sublist_of` done ->
  deduplicate_loop text_blocks seen_texts unique_blocks `sublist_of` done ++ text_blocks.
Proof.
  revert seen_texts unique_blocks done.
  induction text_blocks as [|block rest IH]; intros seen_texts unique_blocks done Hsub; simpl.
  - by rewrite app_nil_r.
  - replace (done ++ block :: rest) with ((done ++ [block]) ++ rest)
      by (by rewrite <- app_assoc).
    destruct (bool_decide (text block ∉ seen_texts)).
    + apply IH. by apply sublist_app.
    + apply IH. by apply sublist_inserts_r.
Qed.

(** The loop keeps the texts of [unique_blocks] distinct, as long as
    [seen_texts] holds each of them. *)
Lemma deduplicate_loop_NoDup text_blocks seen_texts unique_blocks :
  NoDup (text <$> unique_blocks) ->
  (forall b, b ∈ unique_blocks -> text b ∈ seen_texts) ->
  NoDup (text <$> deduplicate_loop text_blocks seen_texts unique_blocks).
Proof.
  revert seen_texts unique_blocks.
  induction text_blocks as [|block rest IH]; intros seen_texts unique_blocks Hnd Hseen;
    simpl; [assumption|].
  destruct (bool_decide (text block ∉ seen_texts)) eqn:Hnew; [|by apply IH].
  apply bool_decide_eq_true in Hnew. apply IH.
  - rewrite fmap_app. apply NoDup_app. split; [assumption|]. split.
    + intros s Hs Hs'. apply list_elem_of_fmap in Hs as (b & -> & Hb).
      apply list_elem_of_singleton in Hs'. apply Hnew. rewrite <- Hs'. by apply Hseen.
    + apply NoDup_singleton.
  - intros b Hb. apply elem_of_app in Hb as [Hb|Hb].
    + apply elem_of_union_r. by apply Hseen.
    + apply list_elem_of_singleton in Hb as ->.
      by apply elem_of_union_l, elem_of_singleton.
Qed.

Lemma deduplicate_texts_NoDup self text_blocks :
  NoDup (text <$> deduplicate_texts self text_blocks).
Proof.
  unfold deduplicate_texts. destruct text_blocks as [|b rest]; [constructor|].
  apply deduplicate_loop_NoDup; [constructor|]. intros b' Hb'. by apply elem_of_nil in Hb'.
Qed.

(** On blocks whose texts are new and distinct, the loop appends them all. *)
Lemma deduplicate_loop_distinct text_blocks seen_texts unique_blocks :
  NoDup (text <$> text_blocks) ->
  (forall b, b ∈ text_blocks -> text b ∉ seen_texts) ->
  deduplicate_loop text_blocks seen_texts unique_blocks = unique_blocks ++ text_blocks.
Proof.
  revert seen_texts unique_blocks.
  induction text_blocks as [|block rest IH]; intros seen_texts unique_blocks Hnd Hnew; simpl.
  - by rewrite app_nil_r.
  - rewrite fmap_cons in Hnd. apply NoDup_cons in Hnd as [Hhd Hnd].
    rewrite bool_decide_eq_true_2 by (apply Hnew; left).
    rewrite IH; [by rewrite <- app_assoc | assumption |].
    intros b Hb. rewrite elem_of_union, elem_of_singleton. intros [Heq|Hin].
    + apply Hhd. rewrite <- Heq. apply list_elem_of_fmap. eauto.
    + apply (Hnew b); [by right | assumption].
Qed.

Lemma deduplicate_texts_distinct self text_blocks :
  NoDup (text <$> text_blocks) -> deduplicate_texts self text_blocks = text_blocks.
Proof.
  intros Hnd. unfold deduplicate_texts. destruct text_blocks as [|b rest]; [reflexivity|].
  rewrite deduplicate_loop_distinct; [reflexivity | assumption |].
  intros b' _. apply not_elem_of_empty.
Qed.

Lemma with_text_nonempty_iff s (blocks : list TextBlock) :
  s ∈ text <$> blocks <-> with_text s blocks <> [].
Proof.
  unfold with_text. induction blocks as [|b rest IH].
  - split; [intros H; by apply elem_of_nil in H | intros H; by destruct H].
  - rewrite fmap_cons, filter_cons. destruct (decide (text b = s)) as [Heq|Hne].
    + split; [discriminate | intros _; rewrite <- Heq; left].
    + rewrite <- IH. split.
      * intros H. apply elem_of_cons in H as [H|H]; [congruence | assumption].
      * intros H. by right.
Qed.

End TextDeduplicationMore.

(** X1: the texts of the blocks [deduplicate_texts] returns are pairwise
    distinct. *)
Theorem deduplicate_texts_unique_texts (self : TextDeduplicator)
    (text_blocks : list TextBlock) :
  NoDup (map text (deduplicate_texts self text_blocks)).
Proof. apply deduplicate_texts_NoDup. Qed.

(** X2: [deduplicate_texts] returns a subsequence of its input, in the
    input's order, and loses no text: a text occurs among the input blocks
    exactly when it occurs among the returned ones. *)
Theorem deduplicate_texts_preserves_texts (self : TextDeduplicator)
    (text_blocks : list TextBlock) :
  deduplicate_texts self text_blocks `sublist_of` text_blocks /\
  forall s, In s (map text text_blocks)
            <-> In s (map text (deduplicate_texts self text_blocks)).
Proof.
  split.
  - unfold deduplicate_texts. destruct text_blocks as [|b rest]; [constructor|].
    apply (deduplicate_loop_sublist (b :: rest) ∅ [] []). constructor.
  - intros s. rewrite <- !list_elem_of_In.
    change (map text ?l) with (text <$> l).
    rewrite !with_text_nonempty_iff, deduplicate_texts_with_text.
    destruct (with_text s text_blocks); simpl; split; congruence.
Qed.

(** X3: of the blocks that share a text, the one [deduplicate_texts] keeps
    is the first of the input, whatever the confidence of the later ones. *)
Theorem deduplicate_texts_keeps_first_occurrence (self : TextDeduplicator)
    (text_blocks : list TextBlock) (s : string) :
  filter (fun b => text b = s) (deduplicate_texts self text_blocks)
  = take 1 (filter (fun b => text b = s) text_blocks).
Proof. apply deduplicate_texts_with_text. Qed.

(** X4: [deduplicate_texts] is idempotent. *)
Theorem deduplicate_texts_idempotent (self : TextDeduplicator)
    (text_blocks : list TextBlock) :
  deduplicate_texts self (deduplicate_texts self text_blocks)
  = deduplicate_texts self text_blocks.
Proof. apply deduplicate_texts_distinct, deduplicate_texts_NoDup. Qed.

(** X5: blocks whose texts are already pairwise distinct are returned
    unchanged. *)
Theorem deduplicate_texts_distinct_unchanged (self : TextDeduplicator)
    (text_blocks : list TextBlock) :
  NoDup (map text text_blocks) ->
  deduplicate_texts self text_blocks = text_blocks.
Proof. apply deduplicate_texts_distinct. Qed.

(** ** [deduplicate_frames]: what is retained *)

Section FrameDeduplicationMore.

Variable image : Type.
Variable imread : string -> option image.
Variable resized_ssim : image -> image -> outcome Q.

Local Abbreviation similarity := (_calculate_frame_similarity image imread resized_ssim).
Local Abbreviation scan := (scan_unique image imread resized_ssim).
Local Abbreviation loop := (dedup_loop image imread resized_ssim).
Local Abbreviation dedup := (deduplicate_frames image imread resized_ssim).
Local Abbreviation spread := (spread image imread resized_ssim).

Lemma scan_unique_false th frame unique_frames :
  fst (scan th frame unique_frames) = false <->
  forall u, In u unique_frames -> (similarity frame u <= th)%Q.
Proof.
  rewrite scan_unique_flag. split.
  - intros E u Hu. apply exceeds_false.
    destruct (exceeds (similarity frame u) th) eqn:Hx; [|reflexivity].
    assert (existsb (fun u => exceeds (similarity frame u) th) unique_frames = true)
      as E' by (apply existsb_exists; eauto).
    congruence.
  - intros Hall. destruct (existsb _ unique_frames) eqn:E; [|reflexivity].
    apply existsb_exists in E as (u & Hu & Hx). apply exceeds_spec in Hx.
    exfalso. exact (Qlt_not_le _ _ Hx (Hall u Hu)).
Qed.

Lemma scan_unique_true th frame unique_frames :
  fst (scan th frame unique_frames) = true <->
  exists u, In u unique_frames /\ (th < similarity frame u)%Q.
Proof.
  rewrite scan_unique_flag, existsb_exists.
  split; intros (u & Hu & Hx); exists u; (split; [exact Hu|]); by apply exceeds_spec.
Qed.

Lemma spread_snoc th frames f :
  spread th frames ->
  (forall u, In u frames -> (similarity f u <= th)%Q) ->
  spread th (frames ++ [f]).
Proof.
  intros Hsp Hf pre g post Heq u Hu.
  destruct post as [|p post _] using rev_ind.
  - apply (app_inj_tail frames pre f g) in Heq as [-> ->]. by apply Hf.
  - rewrite app_comm_cons, app_assoc in Heq.
    apply app_inj_tail in Heq as [-> _]. by apply (Hsp pre g post eq_refl).
Qed.

Lemma spread_prefix th frames f : spread th (frames ++ [f]) -> spread th frames.
Proof.
  intros Hsp pre g post -> u Hu.
  apply (Hsp pre g (post ++ [f])); [by rewrite <- app_assoc | assumption].
Qed.

Lemma dedup_loop_spread th frames unique_frames log :
  spread th unique_frames -> spread th (fst (loop th frames unique_frames log)).
Proof.
  revert unique_frames log.
  induction frames as [|f frames IH]; intros unique_frames log Hsp; simpl; [assumption|].
  pose proof (scan_unique_false th f unique_frames) as Hscan.
  destruct (scan th f unique_frames) as [d c]. simpl in Hscan. destruct d.
  - by apply IH.
  - apply IH. apply spread_snoc; [assumption|]. by apply Hscan.
Qed.

Lemma dedup_spread th frames : spread th (dedup frames th).
Proof.
  unfold deduplicate_frames, deduplicate_frames_run.
  destruct frames as [|first rest].
  - intros pre f post Heq. by destruct pre.
  - apply dedup_loop_spread. intros pre f post Heq u Hu.
    destruct pre as [|p pre]; [contradiction|].
    destruct pre; discriminate.
Qed.

(** The frames the loop passes by are covered by a retained frame. *)
Lemma dedup_loop_covers th frames unique_frames log f :
  In f unique_frames \/ In f frames
  \/ (exists u, In u unique_frames /\ (th < similarity f u)%Q) ->
  In f (fst (loop th frames unique_frames log))
  \/ exists u, In u (fst (loop th frames unique_frames log)) /\ (th < similarity f u)%Q.
Proof.
  revert unique_frames log.
  induction frames as [|g frames IH]; intros unique_frames log H; simpl.
  - destruct H as [H|[H|H]]; [by left | contradiction | by right].
  - pose proof (scan_unique_true th g unique_frames) as Hscan.
    destruct (scan th g unique_frames) as [d c]. simpl in Hscan. destruct d.
    + apply IH. destruct H as [H|[[->|H]|H]]; [by left | | by right; left | by right; right].
      right; right. by apply Hscan.
    + apply IH. destruct H as [H|[[->|H]|(u & Hu & Hlt)]].
      * left. apply in_or_app. by left.
      * left. apply in_or_app. right. by left.
      * right. by left.
      * right. right. exists u. split; [apply in_or_app; by left | assumption].
Qed.

(** A spread input is returned as it is. *)
Lemma dedup_of_spread th frames : spread th frames -> dedup frames th = frames.
Proof.
  induction frames as [|f frames IH] using rev_ind; intros Hsp; [reflexivity|].
  destruct frames as [|first rest]; [reflexivity|].
  simpl. rewrite dedup_snoc.
  rewrite (IH (spread_prefix _ _ _ Hsp)).
  destruct (existsb _ (first :: rest)) eqn:E; [|reflexivity].
  apply existsb_exists in E as (u & Hu & Hx). apply exceeds_spec in Hx.
  exfalso. apply (Qlt_not_le _ _ Hx).
  by apply (Hsp (first :: rest) f [] eq_refl).
Qed.

(** The inner loop makes at most one comparison per retained frame. *)
Lemma scan_unique_comparisons th frame unique_frames :
  length (snd (scan th frame unique_frames)) <= length unique_frames.
Proof.
  induction unique_frames as [|u rest IH]; simpl; [lia|].
  destruct (exceeds (similarity frame u) th); simpl; [lia|].
  destruct (scan th frame rest) as [d c]. simpl in *. lia.
Qed.

Lemma dedup_loop_lengths th frames unique_frames log :
  let k := length unique_frames in
  let n := length frames in
  length (fst (loop th frames unique_frames log)) <= k + n /\
  length (snd (loop th frames unique_frames log)) * 2
  <= length log * 2 + n * (2 * k + n - 1).
Proof.
  revert unique_frames log.
  induction frames as [|f frames IH]; intros unique_frames log; simpl; [lia|].
  pose proof (scan_unique_comparisons th f unique_frames) as Hc.
  destruct (scan th f unique_frames) as [d c]. simpl in Hc. destruct d.
  - specialize (IH unique_frames (log ++ c)). simpl in IH. rewrite length_app in IH. nia.
  - specialize (IH (unique_frames ++ [f]) (log ++ c)). simpl in IH.
    rewrite !length_app in IH. simpl in IH. nia.
Qed.

(** X6: in the output of [deduplicate_frames], no frame is more similar than
    the threshold to a frame that stands before it. *)
Theorem deduplicate_frames_output_spread (threshold : Q) (frames pre post : list Frame)
    (f u : Frame) :
  deduplicate_frames image imread resized_ssim frames threshold = pre ++ f :: post ->
  In u pre ->
  (_calculate_frame_similarity image imread resized_ssim f u <= threshold)%Q.
Proof.
  intros Heq Hu. by apply (dedup_spread threshold frames pre f post Heq).
Qed.

(** X7: every input frame is retained by [deduplicate_frames] or is more
    similar than the threshold to a retained frame. *)
Theorem deduplicate_frames_covers_input (threshold : Q) (frames : list Frame) (f : Frame) :
  In f frames ->
  In f (deduplicate_frames image imread resized_ssim frames threshold) \/
  exists u, In u (deduplicate_frames image imread resized_ssim frames threshold) /\
            (threshold < _calculate_frame_similarity image imread resized_ssim f u)%Q.
Proof.
  intros Hf. unfold deduplicate_frames, deduplicate_frames_run.
  destruct frames as [|first rest]; [contradiction|].
  apply dedup_loop_covers. destruct Hf as [->|Hf]; [left; by left | right; by left].
Qed.

(** X8: [deduplicate_frames] is idempotent. *)
Theorem deduplicate_frames_idempotent (threshold : Q) (frames : list Frame) :
  deduplicate_frames image imread resized_ssim
    (deduplicate_frames image imread resized_ssim frames threshold) threshold
  = deduplicate_frames image imread resized_ssim frames threshold.
Proof. apply dedup_of_spread, dedup_spread. Qed.

(** X9: for [n] input frames [deduplicate_frames] makes at most
    [n * (n - 1) / 2] comparisons. *)
Theorem deduplicate_frames_comparisons_bound (threshold : Q) (frames : list Frame) :
  length (comparisons image imread resized_ssim frames threshold) * 2
  <= length frames * (length frames - 1).
Proof.
  unfold comparisons, deduplicate_frames_run.
  destruct frames as [|first rest]; [simpl; lia|].
  pose proof (dedup_loop_lengths threshold rest [first] []) as [_ H].
  simpl in *. nia.
Qed.

End FrameDeduplicationMore.

(** ** The scores of the helpers *)

Lemma Zpos_of_nat (b : nat) : b <> 0 -> Z.pos (Pos.of_nat b) = Z.of_nat b.
Proof.
  intros Hb. destruct b as [|b]; [contradiction|].
  rewrite <- Pos.of_nat_succ, Zpos_P_of_succ_nat, Nat2Z.inj_succ. reflexivity.
Qed.

Lemma truediv_nonneg a b : (0 <= truediv a b)%Q.
Proof.
  destruct (decide (b = 0)) as [->|Hb].
  - unfold truediv. simpl. unfold Qdiv, Qinv. simpl. rewrite Qmult_0_r. apply Qle_refl.
  - rewrite (truediv_Qmake a b Hb). unfold Qle. simpl. lia.
Qed.

Lemma truediv_le_1 a b : a <= b -> b <> 0 -> (truediv a b <= 1)%Q.
Proof.
  intros Hab Hb. rewrite (truediv_Qmake a b Hb). unfold Qle. simpl.
  rewrite (Zpos_of_nat b Hb). lia.
Qed.

Lemma truediv_eq_1 a b : b <> 0 -> (truediv a b == 1)%Q <-> a = b.
Proof.
  intros Hb. rewrite (truediv_Qmake a b Hb). unfold Qeq. simpl.
  rewrite (Zpos_of_nat b Hb). lia.
Qed.

Lemma truediv_eq_0 a b : b <> 0 -> (truediv a b == 0)%Q <-> a = 0.
Proof.
  intros Hb. rewrite (truediv_Qmake a b Hb). unfold Qeq. simpl. lia.
Qed.

Lemma lev_prefix_le_max a b i j : lev_prefix a b i j <= Nat.max i j.
Proof.
  revert j. induction i as [|i IHi]; intros j; [rewrite lev_prefix_0_l; lia|].
  destruct j as [|j]; [rewrite lev_prefix_0_r; lia|].
  rewrite lev_prefix_S. pose proof (IHi j). pose proof (subst_cost_le a b i j). lia.
Qed.

Lemma levenshtein_distance_le_max a b :
  levenshtein_distance a b <= Nat.max (String.length a) (String.length b).
Proof. apply lev_prefix_le_max. Qed.

Lemma levenshtein_similarity_range a b :
  exists s, _levenshtein_similarity a b = Returns s /\ (0 <= s <= 1)%Q.
Proof.
  rewrite levenshtein_similarity_value.
  destruct (Nat.max (String.length a) (String.length b) =? 0) eqn:E.
  - exists 1%Q. split; [reflexivity|]. split; discriminate.
  - apply Nat.eqb_neq in E. eexists. split; [reflexivity|].
    pose proof (truediv_nonneg (levenshtein_distance a b)
                  (Nat.max (String.length a) (String.length b))) as H0.
    pose proof (truediv_le_1 _ _ (levenshtein_distance_le_max a b) E) as H1.
    split.
    + apply (Qplus_le_l _ _ (truediv (levenshtein_distance a b)
                               (Nat.max (String.length a) (String.length b)))).
      ring_simplify. exact H1.
    + apply (Qplus_le_l _ _ (truediv (levenshtein_distance a b)
                               (Nat.max (String.length a) (String.length b)))).
      ring_simplify.
      apply (Qplus_le_r _ _ 1) in H0. ring_simplify in H0. exact H0.
Qed.

Lemma jaccard_range a b : (0 <= _jaccard_similarity a b <= 1)%Q.
Proof.
  unfold _jaccard_similarity. cbv zeta.
  set (A := word_set a). set (B := word_set b).
  destruct (size (A ∪ B) =? 0) eqn:E; [split; discriminate|].
  apply Nat.eqb_neq in E. split; [apply truediv_nonneg|].
  apply truediv_le_1; [|exact E].
  apply subseteq_size. intros x Hx. apply elem_of_union_l.
  by apply elem_of_intersection in Hx as [Hx _].
Qed.

Section ScoreRange.

Variable tfidf_cosine : string -> string -> outcome Q.

(** X10: under the methods [jaccard], [levenshtein] and [word_overlap] the
    engine returns a score between 0 and 1. *)
Theorem similarity_score_range (text1 text2 : string) :
  (exists s, calculate_text_similarity tfidf_cosine text1 text2 "jaccard" = Returns s
             /\ (0 <= s <= 1)%Q) /\
  (exists s, calculate_text_similarity tfidf_cosine text1 text2 "levenshtein" = Returns s
             /\ (0 <= s <= 1)%Q) /\
  (exists s, calculate_text_similarity tfidf_cosine text1 text2 "word_overlap" = Returns s
             /\ (0 <= s <= 1)%Q).
Proof.
  assert (0 <= 0 <= 1)%Q as Hz by (split; discriminate).
  destruct (decide (text1 = EmptyString)) as [->|H1].
  { rewrite !similarity_empty_l. repeat split; by exists 0%Q. }
  destruct (decide (text2 = EmptyString)) as [->|H2].
  { rewrite !similarity_empty_r. repeat split; by exists 0%Q. }
  rewrite !(similarity_nonempty _ _ _ _ H1 H2). simpl.
  split; [eexists; split; [reflexivity | apply jaccard_range]|].
  split; [apply levenshtein_similarity_range|].
  eexists; split; [reflexivity|].
  rewrite word_overlap_is_jaccard. apply jaccard_range.
Qed.

End ScoreRange.

(** ** The Levenshtein distance is a metric *)

Section EditScriptFacts.

#[local] Hint Constructors edit_script : core.

Lemma edit_script_zero a b : edit_script a b 0 -> a = b.
Proof.
  intros H. remember 0 as n eqn:Hn. induction H; try discriminate; [reflexivity|].
  f_equal. by apply IHedit_script.
Qed.

Lemma edit_script_lengths a b n :
  edit_script a b n -> length a <= length b + n /\ length b <= length a + n.
Proof. induction 1; simpl; lia. Qed.

(** Two scripts in a row are no cheaper than some script from end to end. *)
Lemma edit_script_compose a b n :
  edit_script a b n ->
  forall c m, edit_script b c m -> exists k, k <= n + m /\ edit_script a c k.
Proof.
  induction 1 as [|x a b n H IH|x y a b n H IH|x a b n H IH|y a b n H IH]; intros c m H2.
  - exists m. split; [lia | assumption].
  - remember (x :: b) as xb eqn:Exb. revert Exb.
    induction H2 as [|z b' c' m' H2 _|z w b' c' m' H2 _|z b' c' m' H2 _|w b' c' m' H2 IH2];
      intros Exb; try discriminate.
    + injection Exb as -> ->. destruct (IH _ _ H2) as (k & Hk & Hs).
      exists k. split; [lia | auto].
    + injection Exb as -> ->. destruct (IH _ _ H2) as (k & Hk & Hs).
      exists (S k). split; [lia | auto].
    + injection Exb as -> ->. destruct (IH _ _ H2) as (k & Hk & Hs).
      exists (S k). split; [lia | auto].
    + destruct (IH2 Exb) as (k & Hk & Hs). exists (S k). split; [lia | auto].
  - remember (y :: b) as yb eqn:Eyb. revert Eyb.
    induction H2 as [|z b' c' m' H2 _|z w b' c' m' H2 _|z b' c' m' H2 _|w b' c' m' H2 IH2];
      intros Eyb; try discriminate.
    + injection Eyb as -> ->. destruct (IH _ _ H2) as (k & Hk & Hs).
      exists (S k). split; [lia | auto].
    + injection Eyb as -> ->. destruct (IH _ _ H2) as (k & Hk & Hs).
      exists (S k). split; [lia | auto].
    + injection Eyb as -> ->. destruct (IH _ _ H2) as (k & Hk & Hs).
      exists (S k). split; [lia | auto].
    + destruct (IH2 Eyb) as (k & Hk & Hs). exists (S k). split; [lia | auto].
  - destruct (IH _ _ H2) as (k & Hk & Hs). exists (S k). split; [lia | auto].
  - remember (y :: b) as yb eqn:Eyb. revert Eyb.
    induction H2 as [|z b' c' m' H2 _|z w b' c' m' H2 _|z b' c' m' H2 _|w b' c' m' H2 IH2];
      intros Eyb; try discriminate.
    + injection Eyb as -> ->. destruct (IH _ _ H2) as (k & Hk & Hs).
      exists (S k). split; [lia | auto].
    + injection Eyb as -> ->. destruct (IH _ _ H2) as (k & Hk & Hs).
      exists (S k). split; [lia | auto].
    + injection Eyb as -> ->. destruct (IH _ _ H2) as (k & Hk & Hs).
      exists k. split; [lia | auto].
    + destruct (IH2 Eyb) as (k & Hk & Hs). exists (S k). split; [lia | auto].
Qed.

End EditScriptFacts.

Lemma list_ascii_of_string_inj a b :
  list_ascii_of_string a = list_ascii_of_string b -> a = b.
Proof.
  intros H. rewrite <- (string_of_list_ascii_of_string a),
    <- (string_of_list_ascii_of_string b). by rewrite H.
Qed.

Lemma levenshtein_distance_zero a b : levenshtein_distance a b = 0 <-> a = b.
Proof.
  split; [|intros ->; apply levenshtein_distance_self].
  intros H. destruct (levenshtein_distance_least a b) as [Hs _].
  rewrite H in Hs. by apply list_ascii_of_string_inj, edit_script_zero.
Qed.

(** X11: [_levenshtein_similarity] returns 1 exactly when the two strings
    are equal. *)
Theorem levenshtein_similarity_one_iff_equal (a b : string) :
  returns_score (_levenshtein_similarity a b) 1 <-> a = b.
Proof.
  split; [|intros ->; apply levenshtein_similarity_self].
  intros (s & Hs & H1). rewrite levenshtein_similarity_value in Hs.
  destruct (Nat.max (String.length a) (String.length b) =? 0) eqn:E.
  - apply Nat.eqb_eq in E.
    destruct a; destruct b; simpl in E; try lia. reflexivity.
  - apply Nat.eqb_neq in E. injection Hs as <-.
    apply levenshtein_distance_zero.
    apply (truediv_eq_0 _ _ E).
    apply (Qplus_inj_l _ _ (1 - truediv (levenshtein_distance a b)
                                  (Nat.max (String.length a) (String.length b)))).
    rewrite H1 at 2. ring.
Qed.

Lemma computed_distance_spec a b :
  computed_distance a b = Some (levenshtein_distance a b).
Proof.
  unfold computed_distance, levenshtein_distance.
  destruct (levenshtein_matrix_spec (list_ascii_of_string a) (list_ascii_of_string b))
    as (dp & -> & Hcells).
  rewrite <- !length_list_ascii_of_string. by apply Hcells.
Qed.

(** X12: the distance [dp[m][n]] that the loops of [_levenshtein_similarity]
    compute is a metric on strings: it is zero exactly between equal
    strings, symmetric, and satisfies the triangle inequality; it lies
    between the difference of the two lengths and the greater length. *)
Theorem levenshtein_distance_metric (a b c : string) :
  exists dab dba dbc dac,
    computed_distance a b = Some dab /\ computed_distance b a = Some dba /\
    computed_distance b c = Some dbc /\ computed_distance a c = Some dac /\
    (dab = 0 <-> a = b) /\
    dab = dba /\
    dac <= dab + dbc /\
    String.length a - String.length b <= dab /\
    String.length b - String.length a <= dab /\
    dab <= Nat.max (String.length a) (String.length b).
Proof.
  exists (levenshtein_distance a b), (levenshtein_distance b a),
    (levenshtein_distance b c), (levenshtein_distance a c).
  rewrite !computed_distance_spec.
  do 4 (split; [reflexivity|]).
  split; [apply levenshtein_distance_zero|].
  split; [apply levenshtein_distance_sym|].
  split; [|].
  - destruct (levenshtein_distance_least a b) as [Hab _].
    destruct (levenshtein_distance_least b c) as [Hbc _].
    destruct (levenshtein_distance_least a c) as [_ Hac].
    destruct (edit_script_compose _ _ _ Hab _ _ Hbc) as (k & Hk & Hs).
    specialize (Hac k Hs). lia.
  - destruct (levenshtein_distance_least a b) as [Hab _].
    apply edit_script_lengths in Hab. rewrite !length_list_ascii_of_string in Hab.
    pose proof (levenshtein_distance_le_max a b). lia.
Qed.

(** ** The extremes of the Jaccard score *)

(** X13: [_jaccard_similarity] is 1 exactly when the two texts have the same
    set of words and that set is not empty, and 0 exactly when they share no
    word. *)
Theorem jaccard_extremes (text1 text2 : string) :
  ((_jaccard_similarity text1 text2 == 1)%Q <->
     word_set text1 = word_set text2 /\ word_set text1 <> ∅) /\
  ((_jaccard_similarity text1 text2 == 0)%Q <->
     word_set text1 ∩ word_set text2 = ∅).
Proof.
  unfold _jaccard_similarity. cbv zeta.
  generalize (word_set text1) (word_set text2). intros A B.
  assert (A ∩ B ⊆ A ∪ B) as Hsub.
  { intros x Hx. apply elem_of_union_l. by apply elem_of_intersection in Hx as [Hx _]. }
  destruct (size (A ∪ B) =? 0) eqn:E.
  - apply Nat.eqb_eq in E. apply size_empty_inv in E. apply leibniz_equiv in E.
    assert (A = ∅) as HA.
    { apply leibniz_equiv. apply elem_of_equiv_empty. intros x Hx.
      apply (not_elem_of_empty (C:=gset string) x). rewrite <- E. by apply elem_of_union_l. }
    assert (B = ∅) as HB.
    { apply leibniz_equiv. apply elem_of_equiv_empty. intros x Hx.
      apply (not_elem_of_empty (C:=gset string) x). rewrite <- E. by apply elem_of_union_r. }
    split.
    + split; [discriminate | intros [_ Hne]; contradiction].
    + split; [intros _ | reflexivity]. rewrite HA.
      apply intersection_empty_l_L.
  - apply Nat.eqb_neq in E. split.
    + rewrite (truediv_eq_1 _ _ E). split.
      * intros Hsz.
        assert (A ∩ B = A ∪ B) as Heq
          by (apply set_subseteq_size_eq; [exact Hsub | lia]).
        split.
        -- apply leibniz_equiv. intros x. split; intros Hx.
           ++ assert (x ∈ A ∩ B) as H by (rewrite Heq; by apply elem_of_union_l).
              by apply elem_of_intersection in H as [_ H].
           ++ assert (x ∈ A ∩ B) as H by (rewrite Heq; by apply elem_of_union_r).
              by apply elem_of_intersection in H as [H _].
        -- intros HA. apply E. rewrite <- Hsz.
           assert (size (A ∩ B) <= size A) as Hle.
           { apply subseteq_size. intros x Hx.
             by apply elem_of_intersection in Hx as [Hx _]. }
           subst A. rewrite size_empty in Hle. lia.
      * intros [HAB _]. rewrite <- HAB.
        assert (A ∩ A = A) as -> by apply intersection_idemp_L.
        assert (A ∪ A = A) as -> by apply union_idemp_L. reflexivity.
    + rewrite (truediv_eq_0 _ _ E). split.
      * intros Hsz. apply size_empty_inv in Hsz. by apply leibniz_equiv in Hsz.
      * intros ->. apply size_empty.
Qed.

(** ** Letter case *)

Section LetterCase.

Lemma isspace_lower_char c : PyStr.isspace (PyStr.lower_char c) = PyStr.isspace c.
Proof. destruct c as [[] [] [] [] [] [] [] []]; reflexivity. Qed.

Lemma kept_char_lower_char c : kept_char (PyStr.lower_char c) = kept_char c.
Proof. destruct c as [[] [] [] [] [] [] [] []]; reflexivity. Qed.

Lemma lower_char_idemp c : PyStr.lower_char (PyStr.lower_char c) = PyStr.lower_char c.
Proof. destruct c as [[] [] [] [] [] [] [] []]; reflexivity. Qed.

Lemma lower_idemp s : PyStr.lower (PyStr.lower s) = PyStr.lower s.
Proof. induction s as [|c s IH]; simpl; [reflexivity|]. by rewrite lower_char_idemp, IH. Qed.

Lemma lower_app s1 s2 :
  PyStr.lower (s1 ++ s2)%string = (PyStr.lower s1 ++ PyStr.lower s2)%string.
Proof. induction s1 as [|c s1 IH]; simpl; [reflexivity|]. by rewrite IH. Qed.

Lemma lower_eq_empty s : PyStr.lower s = EmptyString <-> s = EmptyString.
Proof. destruct s; simpl; split; congruence. Qed.

Lemma split_from_lower cur s :
  PyStr.split_from (PyStr.lower cur) (PyStr.lower s)
  = map PyStr.lower (PyStr.split_from cur s).
Proof.
  revert cur. induction s as [|c s IH]; intros cur; simpl.
  - destruct cur; reflexivity.
  - rewrite isspace_lower_char. destruct (PyStr.isspace c).
    + destruct cur; simpl; [apply (IH EmptyString)|]. f_equal. apply (IH EmptyString).
    + rewrite <- IH, lower_app. reflexivity.
Qed.

Lemma join_lower l :
  PyStr.join " " (map PyStr.lower l) = PyStr.lower (PyStr.join " " l).
Proof.
  induction l as [|x l IH]; [reflexivity|].
  destruct l as [|y l]; [reflexivity|].
  change (PyStr.join " " (map PyStr.lower (x :: y :: l)))
    with (PyStr.lower x ++ " " ++ PyStr.join " " (map PyStr.lower (y :: l)))%string.
  rewrite IH.
  change (PyStr.join " " (x :: y :: l)) with (x ++ " " ++ PyStr.join " " (y :: l))%string.
  rewrite !lower_app. reflexivity.
Qed.

Lemma filter_chars_lower s :
  PyStr.filter_chars kept_char (PyStr.lower s)
  = PyStr.lower (PyStr.filter_chars kept_char s).
Proof.
  induction s as [|c s IH]; simpl; [reflexivity|].
  rewrite kept_char_lower_char. destruct (kept_char c); simpl; by rewrite IH.
Qed.

Lemma clean_text_lower text : clean_text (PyStr.lower text) = clean_text text.
Proof.
  unfold clean_text, PyStr.split.
  pose proof (split_from_lower EmptyString text) as Hsplit.
  change (PyStr.lower EmptyString) with EmptyString in Hsplit.
  rewrite Hsplit, join_lower, filter_chars_lower. apply lower_idemp.
Qed.

Variable tfidf_cosine : string -> string -> outcome Q.

(** X14: the engine ignores letter case: lowering either input with
    [str.lower] leaves the score unchanged, under every method. *)
Theorem similarity_ignores_case (text1 text2 method : string) :
  calculate_text_similarity tfidf_cosine (PyStr.lower text1) text2 method
  = calculate_text_similarity tfidf_cosine text1 text2 method /\
  calculate_text_similarity tfidf_cosine text1 (PyStr.lower text2) method
  = calculate_text_similarity tfidf_cosine text1 text2 method.
Proof.
  unfold calculate_text_similarity, PyStr.falsy.
  rewrite !clean_text_lower.
  split.
  - destruct text1; reflexivity.
  - destruct text2; reflexivity.
Qed.

End LetterCase.

(** ** [normalize_text_similarity] *)

Lemma Qnot_1_le_0 : ~ (1 <= 0)%Q.
Proof. intros H. apply (Qlt_not_le 0 1); [reflexivity | exact H]. Qed.

Lemma normalize_range (x : Q) : (0 <= normalize_text_similarity x <= 1)%Q.
Proof.
  unfold normalize_text_similarity, py_max, py_min.
  destruct (Qlt_le_dec x 1) as [H1|H1]; destruct (Qlt_le_dec 0 _) as [H0|H0];
    split; try discriminate; try assumption; try (by apply Qlt_le_weak).
Qed.

Lemma normalize_fixed (x : Q) :
  (0 <= x <= 1)%Q -> (normalize_text_similarity x == x)%Q.
Proof.
  intros [H0 H1]. unfold normalize_text_similarity, py_max, py_min.
  destruct (Qlt_le_dec x 1) as [Hx|Hx].
  - destruct (Qlt_le_dec 0 x) as [Hp|Hp]; [reflexivity|]. by apply Qle_antisym.
  - destruct (Qlt_le_dec 0 1) as [_|Hp]; [by apply Qle_antisym | destruct (Qnot_1_le_0 Hp)].
Qed.

(** [normalize_text_similarity] returns a value between 0 and 1, leaves
    a value of that range as it is, and maps what is below to 0 and what is
    above to 1. *)
Lemma normalize_text_similarity_clamps (x : Q) :
  (0 <= normalize_text_similarity x <= 1)%Q /\
  ((0 <= x <= 1)%Q -> (normalize_text_similarity x == x)%Q) /\
  ((x < 0)%Q -> normalize_text_similarity x = 0%Q) /\
  ((1 < x)%Q -> normalize_text_similarity x = 1%Q).
Proof.
  split; [apply normalize_range|]. split; [apply normalize_fixed|].
  unfold normalize_text_similarity, py_max, py_min. split; intros Hx.
  - destruct (Qlt_le_dec x 1) as [H1|H1].
    + destruct (Qlt_le_dec 0 x) as [Hp|Hp]; [|reflexivity].
      exfalso. exact (Qlt_irrefl _ (Qlt_trans _ _ _ Hp Hx)).
    + exfalso. apply (Qlt_not_le _ _ Hx). apply (Qle_trans _ 1); [discriminate | assumption].
  - destruct (Qlt_le_dec x 1) as [H1|H1].
    + exfalso. exact (Qlt_irrefl _ (Qlt_trans _ _ _ Hx H1)).
    + destruct (Qlt_le_dec 0 1) as [_|Hp]; [reflexivity | destruct (Qnot_1_le_0 Hp)].
Qed.

Section NormalizedScores.

Variable tfidf_cosine : string -> string -> outcome Q.

(** X15: normalising a score of the engine under [jaccard], [levenshtein]
    or [word_overlap] does not change it. *)
Theorem normalize_keeps_similarity (text1 text2 method : string) :
  In method ["jaccard"; "levenshtein"; "word_overlap"]%string ->
  exists s, calculate_text_similarity tfidf_cosine text1 text2 method = Returns s /\
            (normalize_text_similarity s == s)%Q.
Proof.
  intros Hm.
  assert (0 <= 0 <= 1)%Q as Hz by (split; discriminate).
  destruct (decide (text1 = EmptyString)) as [->|H1].
  { rewrite similarity_empty_l. exists 0%Q. split; [reflexivity | by apply normalize_fixed]. }
  destruct (decide (text2 = EmptyString)) as [->|H2].
  { rewrite similarity_empty_r. exists 0%Q. split; [reflexivity | by apply normalize_fixed]. }
  rewrite (similarity_nonempty _ _ _ _ H1 H2).
  simpl in Hm. destruct Hm as [<-|[<-|[<-|[]]]]; simpl.
  - eexists. split; [reflexivity|]. apply normalize_fixed, jaccard_range.
  - destruct (levenshtein_similarity_range (clean_text text1) (clean_text text2))
      as (s & -> & Hs).
    exists s. split; [reflexivity | by apply normalize_fixed].
  - eexists. split; [reflexivity|]. apply normalize_fixed.
    rewrite word_overlap_is_jaccard. apply jaccard_range.
Qed.

End NormalizedScores.

(** ** [extract_text_from_video] and [deduplicate_texts] *)

Lemma str_of_nat_inj i j : str_of_nat i = str_of_nat j -> i = j.
Proof.
  unfold str_of_nat. intros H. apply DecimalNat.Unsigned.to_uint_inj.
  pose proof (DecimalString.NilEmpty.usu (Nat.to_uint i)) as Hi.
  pose proof (DecimalString.NilEmpty.usu (Nat.to_uint j)) as Hj.
  rewrite H in Hi. congruence.
Qed.

Lemma string_app_inv_head (p s1 s2 : string) : (p ++ s1 = p ++ s2)%string -> s1 = s2.
Proof. induction p as [|c p IH]; simpl; [auto|]. intros H. injection H as H. auto. Qed.

Lemma extract_text_lookup {A : Type} self (frames : list A) i b :
  extract_text_from_video self frames !! i = Some b ->
  text b = ("Sample text from frame " ++ str_of_nat i)%string.
Proof.
  unfold extract_text_from_video. rewrite list_lookup_imap.
  destruct (frames !! i); simpl; [|discriminate]. intros [= <-]. reflexivity.
Qed.

Lemma extract_text_NoDup {A : Type} self (frames : list A) :
  NoDup (text <$> extract_text_from_video self frames).
Proof.
  apply NoDup_alt. intros i j s Hi Hj.
  rewrite list_lookup_fmap in Hi, Hj.
  destruct (extract_text_from_video self frames !! i) as [bi|] eqn:Ei; [|discriminate].
  destruct (extract_text_from_video self frames !! j) as [bj|] eqn:Ej; [|discriminate].
  simpl in Hi, Hj. apply extract_text_lookup in Ei, Ej.
  apply str_of_nat_inj, (string_app_inv_head "Sample text from frame "). congruence.
Qed.

(** X16: in the pipeline of the [run] command, [deduplicate_texts] applied
    to the blocks of [extract_text_from_video] removes nothing: there is one
    block per frame and their texts are pairwise distinct. *)
Theorem run_deduplication_keeps_all_blocks {A : Type} (extractor : TextExtractor)
    (deduplicator : TextDeduplicator) (frames : list A) :
  deduplicate_texts deduplicator (extract_text_from_video extractor frames)
  = extract_text_from_video extractor frames /\
  length (deduplicate_texts deduplicator (extract_text_from_video extractor frames))
  = length frames.
Proof.
  rewrite (deduplicate_texts_distinct _ _ (extract_text_NoDup extractor frames)).
  split; [reflexivity|]. unfold extract_text_from_video. apply length_imap.
Qed.

(** ** The [ocr] and [analyze] commands *)

Lemma refined_to_text_dict text_item :
  refined_text (to_text_dict text_item) = without_source text_item.
Proof. reflexivity. Qed.

(** The blocks [deduplicate_texts] returns are blocks of its input. *)
Lemma deduplicate_texts_from_input self text_blocks b :
  b ∈ deduplicate_texts self text_blocks -> b ∈ text_blocks.
Proof.
  intros Hb.
  assert (deduplicate_texts self text_blocks `sublist_of` text_blocks) as Hsub.
  { unfold deduplicate_texts. destruct text_blocks as [|b0 rest]; [constructor|].
    apply (deduplicate_loop_sublist (b0 :: rest) ∅ [] []). constructor. }
  apply sublist_submseteq in Hsub. exact (elem_of_submseteq _ _ _ Hb Hsub).
Qed.

(** X17: with [--dedup], [analyze] passes on entries with pairwise distinct
    texts, as many as there are distinct texts in the OCR data; each is an
    entry of the OCR data with its source file replaced by ["unknown"].
    Without the flag the entries are passed on as they are. *)
Theorem analyze_dedup_forgets_source (frames : list OcrFrame) :
  NoDup (map item_text (analyze_texts true frames)) /\
  (forall s, In s (map item_text (all_texts frames))
             <-> In s (map item_text (analyze_texts true frames))) /\
  (forall text_item, In text_item (analyze_texts true frames) ->
     exists original, In original (all_texts frames) /\
                      text_item = without_source original) /\
  analyze_texts false frames = all_texts frames.
Proof.
  unfold analyze_texts. cbv zeta.
  set (dicts := map to_text_dict (all_texts frames)).
  set (d := TextDeduplicator_init None).
  assert (forall l : list TextBlock, map item_text (map refined_text l) = map text l) as Htexts
    by (intros l; rewrite map_map; reflexivity).
  assert (map text dicts = map item_text (all_texts frames)) as Hdicts
    by (unfold dicts; rewrite map_map; reflexivity).
  split; [rewrite Htexts; apply deduplicate_texts_NoDup|].
  split; [|split; [|reflexivity]].
  - intros s. rewrite Htexts, <- Hdicts. rewrite <- !list_elem_of_In.
    change (map text ?l) with (text <$> l).
    rewrite !with_text_nonempty_iff, deduplicate_texts_with_text.
    destruct (with_text s dicts); simpl; split; congruence.
  - intros text_item Hin. apply in_map_iff in Hin as (b & <- & Hb).
    apply list_elem_of_In, deduplicate_texts_from_input in Hb.
    unfold dicts in Hb. apply list_elem_of_In, in_map_iff in Hb as (original & <- & Ho).
    exists original. split; [exact Ho | apply refined_to_text_dict].
Qed.

Section OcrThenAnalyze.

Variable A : Type.
Variable timestamp_of_name : string -> Q.

Lemma ocr_frame_texts extractor threshold (img : string * A) :
  Forall (fun block => ocr_text block = "Sample text from frame 0"%string)
    (ocr_text_blocks (ocr_frame_data A timestamp_of_name extractor threshold img)).
Proof.
  unfold ocr_frame_data. simpl.
  destruct (Qle_bool threshold (9 # 10)); simpl; repeat constructor.
Qed.

Lemma all_texts_of_ocr extractor threshold (frames : list (string * A)) :
  Forall (fun text_item => item_text text_item = "Sample text from frame 0"%string)
    (all_texts (ocr_data A timestamp_of_name extractor threshold frames)).
Proof.
  unfold all_texts, ocr_data. induction frames as [|img frames IH]; simpl; [constructor|].
  apply Forall_app. split; [|exact IH].
  apply Forall_forall. intros text_item Hin.
  apply list_elem_of_In, in_map_iff in Hin as (block & <- & Hb). simpl.
  pose proof (ocr_frame_texts extractor threshold img) as Hall.
  rewrite Forall_forall in Hall. by apply Hall, list_elem_of_In.
Qed.

(** X18: whatever the number of frames, [analyze --dedup] on the data of
    [ocr] passes on at most one entry: [ocr] calls the extractor on one
    frame at a time, so every block carries the text of frame 0. *)
Theorem ocr_then_analyze_dedup_single_text (extractor : TextExtractor)
    (threshold : Q) (frames : list (string * A)) :
  length (analyze_texts true (ocr_data A timestamp_of_name extractor threshold frames)) <= 1 /\
  Forall (fun text_item => item_text text_item = "Sample text from frame 0"%string)
    (analyze_texts false (ocr_data A timestamp_of_name extractor threshold frames)).
Proof.
  split; [|apply all_texts_of_ocr].
  unfold analyze_texts. cbv zeta. rewrite length_map.
  set (dicts := map to_text_dict _).
  assert (Forall (fun b => text b = "Sample text from frame 0"%string) dicts) as Hall.
  { unfold dicts. apply Forall_forall. intros b Hb.
    apply list_elem_of_In, in_map_iff in Hb as (it & <- & Hit). simpl.
    pose proof (all_texts_of_ocr extractor threshold frames) as H.
    rewrite Forall_forall in H. by apply H, list_elem_of_In. }
  pose proof (deduplicate_texts_NoDup (TextDeduplicator_init None) dicts) as Hnd.
  assert (Forall (fun b => text b = "Sample text from frame 0"%string)
            (deduplicate_texts (TextDeduplicator_init None) dicts)) as Hall'.
  { apply Forall_forall. intros b Hb. rewrite Forall_forall in Hall.
    apply Hall. by apply deduplicate_texts_from_input in Hb. }
  destruct (deduplicate_texts (TextDeduplicator_init None) dicts) as [|b1 [|b2 rest]];
    simpl; [lia | lia |].
  exfalso. rewrite !fmap_cons in Hnd. apply NoDup_cons in Hnd as [Hnotin _].
  apply Hnotin. apply Forall_cons in Hall' as [H1 Hall'].
  apply Forall_cons in Hall' as [H2 _]. rewrite H1, <- H2. left.
Qed.

End OcrThenAnalyze.

(** ** Sorting by decreasing key *)

Section SortByKey.

Context {A : Type} (key : A -> Q).

Lemma insert_by_key_desc_perm x l : insert_by_key_desc key x l ≡ₚ x :: l.
Proof.
  induction l as [|y l IH]; simpl; [reflexivity|].
  destruct (Qlt_le_dec (key x) (key y)); [|reflexivity].
  rewrite IH. apply Permutation_swap.
Qed.

Lemma sort_by_key_desc_perm l : sort_by_key_desc key l ≡ₚ l.
Proof.
  induction l as [|x l IH]; simpl; [reflexivity|].
  rewrite insert_by_key_desc_perm. by rewrite IH.
Qed.

Lemma insert_by_key_desc_sorted x l :
  StronglySorted (fun a b => (key b <= key a)%Q) l ->
  StronglySorted (fun a b => (key b <= key a)%Q) (insert_by_key_desc key x l).
Proof.
  induction l as [|y l IH]; intros Hs; simpl; [repeat constructor|].
  apply StronglySorted_inv in Hs as [Hs Hy].
  destruct (Qlt_le_dec (key x) (key y)) as [Hlt|Hle].
  - constructor; [by apply IH|].
    rewrite insert_by_key_desc_perm. constructor; [by apply Qlt_le_weak | exact Hy].
  - constructor; [by constructor|]. constructor; [exact Hle|].
    eapply Forall_impl; [exact Hy|]. intros z Hz. simpl in Hz.
    by apply (Qle_trans _ (key y)).
Qed.

Lemma sort_by_key_desc_sorted l :
  StronglySorted (fun a b => (key b <= key a)%Q) (sort_by_key_desc key l).
Proof.
  induction l as [|x l IH]; simpl; [constructor|]. by apply insert_by_key_desc_sorted.
Qed.

End SortByKey.

(** ** [find_similar_pairs] and [calculate_similarity_matrix] *)

Lemma py_index_in_range {A : Type} (l : list A) i :
  i < length l -> exists x, l !! i = Some x /\ py_index l i = Returns x.
Proof.
  intros Hi. destruct (lookup_lt_is_Some_2 l i Hi) as [x Hx].
  exists x. split; [assumption|]. unfold py_index. by rewrite Hx.
Qed.

Lemma array2_set_cells a i j v :
  is_Some (Array2.cell a i j) ->
  exists a', Array2.set a i j v = Returns a' /\
    length a' = length a /\
    (forall k, length <$> (a' !! k) = length <$> (a !! k)) /\
    forall i' j', Array2.cell a' i' j'
                  = if decide (i' = i /\ j' = j) then Some v else Array2.cell a i' j'.
Proof.
  unfold Array2.cell, Array2.set. intros [w Hw].
  destruct (a !! i) as [row|] eqn:Hrow; [|discriminate].
  pose proof (lookup_lt_Some _ _ _ Hw) as Hj.
  pose proof (lookup_lt_Some _ _ _ Hrow) as Hi.
  rewrite decide_True by assumption.
  eexists. split; [reflexivity|]. split; [apply length_insert|]. split.
  - intros k. destruct (decide (k = i)) as [->|Hne].
    + rewrite list_lookup_insert_eq by assumption. rewrite Hrow. simpl.
      by rewrite length_insert.
    + by rewrite list_lookup_insert_ne by auto.
  - intros i' j'. destruct (decide (i' = i)) as [->|Hne].
    + rewrite list_lookup_insert_eq by assumption.
      destruct (decide (j' = j)) as [->|Hnej].
      * rewrite decide_True by auto. by apply list_lookup_insert_eq.
      * rewrite decide_False by tauto. rewrite Hrow.
        by apply list_lookup_insert_ne.
    + rewrite decide_False by tauto.
      rewrite list_lookup_insert_ne by auto. reflexivity.
Qed.

Section SimilarityTablesFacts.

Variable tfidf_cosine : string -> string -> outcome Q.

Local Abbreviation engine := (calculate_text_similarity tfidf_cosine).

Section Pairs.

Variable texts : list string.
Variable threshold : Q.
Variable method : string.

Local Abbreviation n := (length texts).
Local Abbreviation reported := (similar_pair tfidf_cosine texts threshold method).

Lemma similar_pair_bound i j s : reported i j s -> j < n.
Proof. intros (_ & ti & tj & _ & Hj & _). by apply lookup_lt_Some in Hj. Qed.

Lemma similar_pair_step_spec i j acc :
  i < j < n ->
  (forall a b s, In (a, b, s) acc <->
                 (a < i /\ reported a b s) \/ (a = i /\ b < j /\ reported a b s)) ->
  exists acc', similar_pair_step tfidf_cosine texts threshold method i j acc = Returns acc' /\
    forall a b s, In (a, b, s) acc' <->
                  (a < i /\ reported a b s) \/ (a = i /\ b < S j /\ reported a b s).
Proof.
  intros Hij Hacc. unfold similar_pair_step.
  destruct (py_index_in_range texts i) as (ti & Hti & ->); [lia|].
  destruct (py_index_in_range texts j) as (tj & Htj & ->); [lia|].
  simpl. destruct (similarity_returns tfidf_cosine ti tj method) as (s0 & Hs0).
  rewrite Hs0. simpl.
  assert (forall s, reported i j s -> s = s0 /\ (threshold <= s0)%Q) as Hfun.
  { intros s (_ & ti' & tj' & Hi' & Hj' & Hs & Hth).
    assert (ti' = ti) as -> by congruence. assert (tj' = tj) as -> by congruence.
    assert (s = s0) as -> by congruence. auto. }
  destruct (Qle_bool threshold s0) eqn:Hth.
  - apply Qle_bool_iff in Hth. eexists. split; [reflexivity|].
    intros a b s. rewrite in_app_iff, Hacc. simpl. split.
    + intros [[H|(-> & Hb & H)]|[[= <- <- <-]|[]]].
      * by left.
      * right. split; [reflexivity | split; [lia | assumption]].
      * right. split; [reflexivity | split; [lia|]]. split; [lia|]. exists ti, tj. auto.
    + intros [H|(-> & Hb & H)]; [by left; left|].
      destruct (decide (b = j)) as [->|Hne].
      * right. left. destruct (Hfun s H) as [-> _]. reflexivity.
      * left. right. split; [reflexivity | split; [lia | assumption]].
  - eexists. split; [reflexivity|].
    intros a b s. rewrite Hacc. split.
    + intros [H|(-> & Hb & H)]; [by left|].
      right. split; [reflexivity | split; [lia | assumption]].
    + intros [H|(-> & Hb & H)]; [by left|].
      destruct (decide (b = j)) as [->|Hne].
      * destruct (Hfun s H) as [_ Hle]. apply Qle_bool_iff in Hle. congruence.
      * right. split; [reflexivity | split; [lia | assumption]].
Qed.

Lemma similar_pairs_loops :
  exists acc,
    for_each (range 0 n)
      (fun i similar_pairs =>
         for_each (range (i + 1) n)
           (similar_pair_step tfidf_cosine texts threshold method i) similar_pairs)
      [] = Returns acc /\
    forall a b s, In (a, b, s) acc <-> reported a b s.
Proof.
  destruct (for_each_range_invariant
              (fun i acc => forall a b s, In (a, b, s) acc <-> a < i /\ reported a b s)
              (fun i similar_pairs =>
                 for_each (range (i + 1) n)
                   (similar_pair_step tfidf_cosine texts threshold method i) similar_pairs)
              0 n []) as (acc & Hrun & Hacc); [lia | | |].
  - intros a b s. simpl. split; [contradiction | lia].
  - intros i acc Hi Hacc.
    destruct (for_each_range_invariant
                (fun j acc' => forall a b s, In (a, b, s) acc' <->
                   (a < i /\ reported a b s) \/ (a = i /\ b < j /\ reported a b s))
                (similar_pair_step tfidf_cosine texts threshold method i)
                (i + 1) n acc) as (acc' & Hrun & Hacc'); [lia | | |].
    + intros a b s. rewrite Hacc. split; [by left|].
      intros [H|(-> & Hb & Hlt & _)]; [assumption | lia].
    + intros j acc1 Hj Hacc1. apply similar_pair_step_spec; [lia | exact Hacc1].
    + exists acc'. split; [exact Hrun|].
      intros a b s. rewrite Hacc'. split.
      * intros [[Ha H]|(-> & Hb & H)]; (split; [lia | assumption]).
      * intros [Ha H]. destruct (decide (a = i)) as [->|Hne].
        -- right. split; [reflexivity | split; [|assumption]].
           by apply similar_pair_bound in H.
        -- left. split; [lia | assumption].
  - exists acc. split; [exact Hrun|].
    intros a b s. rewrite Hacc. split; [by intros [_ H]|].
    intros H. split; [|assumption].
    destruct H as (Hlt & ti & tj & Hi & _). apply lookup_lt_Some in Hi. lia.
Qed.

(** X19: [find_similar_pairs] returns, without raising, the triples
    [(i, j, s)] with [i < j], [s] the engine's score of [texts[i]] and
    [texts[j]], and [s >= threshold], each pair of indices that qualifies
    and no other; the list is ordered by decreasing score. *)
Theorem find_similar_pairs_spec :
  exists pairs,
    find_similar_pairs tfidf_cosine texts threshold method = Returns pairs /\
    (forall i j s, In (i, j, s) pairs <-> similar_pair tfidf_cosine texts threshold method i j s) /\
    StronglySorted (fun p q => (snd q <= snd p)%Q) pairs.
Proof.
  unfold find_similar_pairs.
  destruct similar_pairs_loops as (acc & -> & Hacc). simpl.
  eexists. split; [reflexivity|]. split; [|apply sort_by_key_desc_sorted].
  intros i j s. rewrite <- Hacc, <- !list_elem_of_In.
  by rewrite sort_by_key_desc_perm.
Qed.

End Pairs.

Section MatrixOfScores.

Variable texts : list string.
Variable method : string.

Local Abbreviation n := (length texts).
Local Abbreviation value := (matrix_cell_value tfidf_cosine texts method).
Local Abbreviation scores_inv := (scores_inv tfidf_cosine texts method).

Lemma similarity_matrix_cell_spec i j a :
  i < n -> j < n -> scores_inv i j a ->
  exists a', similarity_matrix_cell tfidf_cosine texts method i j a = Returns a'
             /\ scores_inv i (S j) a'.
Proof.
  intros Hi Hj (Hlen & Hrows & Hcells).
  destruct (Hcells i j Hi Hj) as (old & Hold & _).
  assert (exists v, (forall a0, similarity_matrix_cell tfidf_cosine texts method i j a0
                                = Array2.set a0 i j v) /\ value i j v) as (v & Hbody & Hv).
  { unfold similarity_matrix_cell, matrix_cell_value.
    destruct (decide (i = j)) as [->|Hne]; [by exists 1%Q|].
    destruct (py_index_in_range texts i) as (ti & Hti & ->); [lia|].
    destruct (py_index_in_range texts j) as (tj & Htj & ->); [lia|].
    destruct (similarity_returns tfidf_cosine ti tj method) as (s0 & Hs0).
    exists s0. split; [intros a0; simpl; by rewrite Hs0 | eauto]. }
  rewrite Hbody.
  destruct (array2_set_cells a i j v) as (a' & -> & Hlen' & Hrows' & Hcells');
    [by eexists|].
  exists a'. split; [reflexivity|]. split; [congruence|]. split.
  - intros k row' Hk. specialize (Hrows' k). rewrite Hk in Hrows'. simpl in Hrows'.
    destruct (a !! k) as [row|] eqn:Hak; [|discriminate].
    simpl in Hrows'. injection Hrows' as ->. by apply (Hrows k).
  - intros i' j' Hi' Hj'. rewrite Hcells'.
    destruct (decide (i' = i /\ j' = j)) as [[-> ->]|Hne].
    + exists v. split; [reflexivity | auto].
    + destruct (Hcells i' j' Hi' Hj') as (w & Hw & Hval).
      exists w. split; [exact Hw|]. intros Hvis. apply Hval.
      unfold visited in *. lia.
Qed.

Lemma similarity_matrix_loops :
  exists a, calculate_similarity_matrix tfidf_cosine texts method = Returns a
            /\ scores_inv n 0 a.
Proof.
  unfold calculate_similarity_matrix. cbv zeta.
  apply (for_each_range_invariant (fun i => scores_inv i 0)); [lia | |].
  - split; [apply length_replicate|]. split.
    + intros k row Hk. apply lookup_replicate in Hk as [-> _]. apply length_replicate.
    + intros i' j' Hi' Hj'. exists 0%Q. split.
      * unfold Array2.cell, Array2.zeros.
        rewrite lookup_replicate_2 by assumption. by apply lookup_replicate_2.
      * unfold visited. lia.
  - intros i a Hi Hinv.
    destruct (for_each_range_invariant (scores_inv i)
                (similarity_matrix_cell tfidf_cosine texts method i) 0 n a)
      as (a' & Hrun & Hend); [lia | exact Hinv | |].
    + intros j a1 Hj Ha1. apply similarity_matrix_cell_spec; [lia | lia | exact Ha1].
    + exists a'. split; [exact Hrun|].
      destruct Hend as (Hlen & Hrows & Hcells). split; [exact Hlen|]. split; [exact Hrows|].
      intros i' j' Hi' Hj'. destruct (Hcells i' j' Hi' Hj') as (v & Hv & Hval).
      exists v. split; [exact Hv|]. intros Hvis. apply Hval. unfold visited in *. lia.
Qed.

(** X20: for [n] texts [calculate_similarity_matrix] returns, without
    raising, an [n] by [n] array whose diagonal cells hold 1.0 (also for an
    empty text, which the engine scores 0.0 against itself) and whose cell
    [(i, j)], [i] different from [j], holds the engine's score of
    [texts[i]] and [texts[j]]. *)
Theorem calculate_similarity_matrix_spec :
  exists a,
    calculate_similarity_matrix tfidf_cosine texts method = Returns a /\
    length a = length texts /\
    (forall row, In row a -> length row = length texts) /\
    forall i j, i < length texts -> j < length texts ->
      exists v, Array2.cell a i j = Some v /\
                matrix_cell_value tfidf_cosine texts method i j v.
Proof.
  destruct similarity_matrix_loops as (a & Hrun & Hlen & Hrows & Hcells).
  exists a. split; [exact Hrun|]. split; [exact Hlen|]. split.
  - intros row Hrow. apply list_elem_of_In, list_elem_of_lookup in Hrow as [k Hk].
    by apply (Hrows k).
  - intros i j Hi Hj. destruct (Hcells i j Hi Hj) as (v & Hv & Hval).
    exists v. split; [exact Hv|]. apply Hval. unfold visited. lia.
Qed.

(** X21: under the methods [jaccard], [levenshtein] and [word_overlap],
    which do not call the library, the similarity matrix is symmetric. *)
Theorem calculate_similarity_matrix_symmetric :
  In method ["jaccard"; "levenshtein"; "word_overlap"]%string ->
  exists a,
    calculate_similarity_matrix tfidf_cosine texts method = Returns a /\
    forall i j, i < length texts -> j < length texts ->
      Array2.cell a i j = Array2.cell a j i.
Proof.
  intros Hm.
  destruct similarity_matrix_loops as (a & Hrun & _ & _ & Hcells).
  exists a. split; [exact Hrun|]. intros i j Hi Hj.
  destruct (Hcells i j Hi Hj) as (v & -> & Hv).
  destruct (Hcells j i Hj Hi) as (w & -> & Hw).
  f_equal.
  assert (visited n 0 i j) as Hvij by (unfold visited; lia).
  assert (visited n 0 j i) as Hvji by (unfold visited; lia).
  specialize (Hv Hvij). specialize (Hw Hvji). unfold matrix_cell_value in Hv, Hw.
  destruct (decide (i = j)) as [->|Hne].
  - rewrite decide_True in Hw by reflexivity. congruence.
  - rewrite decide_False in Hw by auto.
    destruct Hv as (ti & tj & Hti & Htj & Hs).
    destruct Hw as (tj' & ti' & Htj' & Hti' & Hs').
    assert (ti' = ti) as -> by congruence. assert (tj' = tj) as -> by congruence.
    rewrite (similarity_sym_without_library tfidf_cosine tj ti method Hm) in Hs'.
    congruence.
Qed.

End MatrixOfScores.

End SimilarityTablesFacts.

(** ** [extract_keywords] *)

Section CounterFacts.

Lemma occurrences_snoc word words w :
  occurrences word (words ++ [w])
  = occurrences word words + (if decide (w = word) then 1 else 0).
Proof.
  unfold occurrences. rewrite filter_app, length_app. f_equal.
  rewrite filter_cons, filter_nil. by destruct (decide (w = word)).
Qed.

Lemma occurrences_pos word words : 0 < occurrences word words <-> In word words.
Proof.
  unfold occurrences. induction words as [|w words IH]; simpl; [split; [lia | tauto]|].
  rewrite filter_cons. destruct (decide (w = word)) as [->|Hne]; simpl.
  - split; [by left | lia].
  - rewrite IH. split; [by right | intros [H|H]; [contradiction | assumption]].
Qed.

Lemma counter_add_keys (word : string) (counts : list (string * nat)) :
  map fst (counter_add word counts)
  = if bool_decide (word ∈ map fst counts) then map fst counts
    else map fst counts ++ [word].
Proof.
  induction counts as [|[w c] rest IH]; simpl; [reflexivity|].
  destruct (String.eqb w word) eqn:E.
  - apply String.eqb_eq in E as ->. simpl.
    rewrite bool_decide_eq_true_2 by left. reflexivity.
  - apply String.eqb_neq in E. simpl. rewrite IH.
    destruct (bool_decide (word ∈ map fst rest)) eqn:Hin.
    + apply bool_decide_eq_true in Hin.
      rewrite bool_decide_eq_true_2 by (by right). reflexivity.
    + apply bool_decide_eq_false in Hin.
      rewrite bool_decide_eq_false_2; [reflexivity|].
      intros H. apply elem_of_cons in H as [H|H]; [congruence | contradiction].
Qed.

Lemma counter_add_NoDup word counts :
  NoDup (map fst counts) -> NoDup (map fst (counter_add word counts)).
Proof.
  intros Hnd. rewrite counter_add_keys.
  destruct (bool_decide (word ∈ map fst counts)) eqn:Hin; [assumption|].
  apply bool_decide_eq_false in Hin. apply NoDup_app. split; [assumption|]. split.
  - intros x Hx Hx'. by apply list_elem_of_singleton in Hx' as ->.
  - apply NoDup_singleton.
Qed.

(** The entries after one more word. *)
Lemma counter_add_In word counts x k :
  NoDup (map fst counts) ->
  In (x, k) (counter_add word counts) <->
  (x <> word /\ In (x, k) counts) \/
  (x = word /\ ((exists k0, In (word, k0) counts /\ k = S k0)
               \/ (~ In word (map fst counts) /\ k = 1))).
Proof.
  induction counts as [|[w c] rest IH]; intros Hnd; simpl.
  - split.
    + intros [[= <- <-]|[]]. right. split; [reflexivity|]. right. tauto.
    + intros [[_ []]|[-> [(k0 & [] & _)|[_ ->]]]]. by left.
  - apply NoDup_cons in Hnd as [Hw Hnd]. specialize (IH Hnd).
    destruct (String.eqb w word) eqn:E.
    + apply String.eqb_eq in E as ->. simpl. split.
      * intros [[= <- <-]|Hin].
        -- right. split; [reflexivity|]. left. exists c. split; [by left | reflexivity].
        -- destruct (decide (x = word)) as [->|Hne].
           ++ exfalso. apply Hw. apply list_elem_of_In, in_map_iff. by exists (word, k).
           ++ left. split; [assumption | by right].
      * intros [[Hne [[= -> ->]|Hin]]|[-> [(k0 & [[= ->]|Hin] & ->)|[Hnot _]]]].
        -- congruence.
        -- by right.
        -- by left.
        -- exfalso. apply Hw. apply list_elem_of_In, in_map_iff. by exists (word, k0).
        -- exfalso. apply Hnot. by left.
    + apply String.eqb_neq in E. simpl. rewrite IH. split.
      * intros [[= <- <-]|[[Hne Hin]|[-> [(k0 & Hin & ->)|[Hnot ->]]]]].
        -- left. split; [assumption | by left].
        -- left. split; [assumption | by right].
        -- right. split; [reflexivity|]. left. exists k0. split; [by right | reflexivity].
        -- right. split; [reflexivity|]. right. split; [|reflexivity].
           intros [H|H]; [congruence | contradiction].
      * intros [[Hne [[= -> ->]|Hin]]|[-> [(k0 & [[= -> ->]|Hin] & ->)|[Hnot ->]]]].
        -- by left.
        -- right. left. tauto.
        -- congruence.
        -- right. right. split; [reflexivity|]. left. eauto.
        -- right. right. split; [reflexivity|]. right. split; [|reflexivity].
           intros H. apply Hnot. by right.
Qed.

Lemma Counter_snoc words w : Counter (words ++ [w]) = counter_add w (Counter words).
Proof. unfold Counter. by rewrite fold_left_app. Qed.

Lemma Counter_NoDup words : NoDup (map fst (Counter words)).
Proof.
  induction words as [|w words IH] using rev_ind; [constructor|].
  rewrite Counter_snoc. by apply counter_add_NoDup.
Qed.

(** The items of a counter: every word that occurs, with the number of its
    occurrences. *)
Lemma Counter_In words x k :
  In (x, k) (Counter words) <-> k = occurrences x words /\ 0 < k.
Proof.
  revert x k. induction words as [|w words IH] using rev_ind; intros x k.
  - simpl. unfold occurrences. simpl. split; [contradiction | lia].
  - rewrite Counter_snoc, (counter_add_In _ _ _ _ (Counter_NoDup words)).
    rewrite occurrences_snoc. split.
    + intros [[Hne Hin]|[-> [(k0 & Hin & ->)|[Hnot ->]]]].
      * apply IH in Hin as [-> Hpos]. rewrite decide_False by congruence. lia.
      * apply IH in Hin as [-> Hpos]. rewrite decide_True by reflexivity. lia.
      * rewrite decide_True by reflexivity.
        assert (occurrences w words = 0) as ->; [|lia].
        destruct (occurrences w words) as [|k0] eqn:E; [reflexivity|].
        exfalso. apply Hnot. apply in_map_iff. exists (w, S k0). split; [reflexivity|].
        apply IH. lia.
    + intros [-> Hpos]. destruct (decide (w = x)) as [->|Hne].
      * right. split; [reflexivity|].
        destruct (occurrences x words) as [|k0] eqn:E.
        -- right. split; [|reflexivity]. intros Hin.
           apply in_map_iff in Hin as ([x' k'] & Hx & Hin). simpl in Hx. subst x'.
           apply IH in Hin. lia.
        -- left. exists (S k0). split; [apply IH; lia | lia].
      * left. split; [congruence|]. apply IH. lia.
Qed.

End CounterFacts.

Lemma slice_to_sublist {A : Type} (l : list A) (k : Z) : slice_to l k `sublist_of` l.
Proof. unfold slice_to. destruct (0 <=? k)%Z; apply sublist_take. Qed.

Lemma slice_to_prefix {A : Type} (l : list A) (k : Z) : exists rest, l = slice_to l k ++ rest.
Proof.
  unfold slice_to. destruct (0 <=? k)%Z; eexists; symmetry; apply take_drop.
Qed.

Lemma slice_to_length {A : Type} (l : list A) (k : Z) :
  (0 <= k)%Z -> length (slice_to l k) <= Z.to_nat k.
Proof.
  intros Hk. unfold slice_to. apply Z.leb_le in Hk. rewrite Hk.
  rewrite length_take. lia.
Qed.

Section KeywordsFacts.

Variable text : string.
Variable max_keywords : Z.

Local Abbreviation words := (findall_words (PyStr.lower text)).
Local Abbreviation key := (fun wc : string * nat => inject_Z (Z.of_nat (snd wc))).
Local Abbreviation kept :=
  (filter (fun wc : string * nat =>
             ~ In (fst wc) stop_words /\ 2 < String.length (fst wc)) (Counter words)).
Local Abbreviation ranked := (slice_to (sort_by_key_desc key kept) max_keywords).

Lemma ranked_In wc :
  In wc ranked ->
  snd wc = occurrences (fst wc) words /\ 0 < snd wc /\
  ~ In (fst wc) stop_words /\ 2 < String.length (fst wc).
Proof.
  intros Hin0. apply list_elem_of_In in Hin0.
  assert (wc ∈ sort_by_key_desc key kept) as Hin
    by exact (elem_of_submseteq _ _ _ Hin0
                (sublist_submseteq _ _ (slice_to_sublist _ max_keywords))).
  rewrite sort_by_key_desc_perm in Hin.
  apply list_elem_of_filter in Hin as [[Hstop Hlen] Hin].
  destruct wc as [w k]. apply list_elem_of_In, Counter_In in Hin as [-> Hpos]. auto.
Qed.

Lemma ranked_NoDup : NoDup (map fst ranked).
Proof.
  apply (sublist_NoDup _ (fst <$> sort_by_key_desc key kept));
    [|apply fmap_sublist, slice_to_sublist].
  rewrite sort_by_key_desc_perm.
  apply (sublist_NoDup _ (fst <$> Counter words));
    [apply Counter_NoDup | apply fmap_sublist, sublist_filter].
Qed.

Lemma ranked_sorted : StronglySorted (fun p q => snd q <= snd p) ranked.
Proof.
  destruct (slice_to_prefix (sort_by_key_desc key kept) max_keywords) as [rest Hrest].
  pose proof (sort_by_key_desc_sorted key kept) as Hs. rewrite Hrest in Hs.
  assert (forall l : list (string * nat),
            StronglySorted (fun p q => (key q <= key p)%Q) l ->
            StronglySorted (fun p q => snd q <= snd p) l) as Hconv.
  { induction 1 as [|p l Hl IH Hall]; constructor; [assumption|].
    eapply Forall_impl; [exact Hall|]. intros q Hq. simpl in Hq.
    rewrite <- Zle_Qle in Hq. lia. }
  apply Hconv.
  revert Hs. generalize ranked. intros l. induction l as [|p l IH]; simpl; intros Hs;
    [constructor|].
  apply StronglySorted_inv in Hs as [Hs Hall]. constructor; [by apply IH|].
  apply Forall_app in Hall as [Hall _]. exact Hall.
Qed.

(** X22: every keyword [extract_keywords] returns is a word of the
    lowercased text with more than two characters that is no stop word; the
    keywords are pairwise distinct, and there are at most [max_keywords] of
    them when that number is not negative. *)
Theorem extract_keywords_sound :
  (forall keyword, In keyword (extract_keywords text max_keywords) ->
     In keyword (findall_words (PyStr.lower text)) /\
     2 < String.length keyword /\ ~ In keyword stop_words) /\
  NoDup (extract_keywords text max_keywords) /\
  ((0 <= max_keywords)%Z ->
   length (extract_keywords text max_keywords) <= Z.to_nat max_keywords).
Proof.
  unfold extract_keywords. cbv zeta. split; [|split].
  - intros keyword Hin. apply in_map_iff in Hin as (wc & <- & Hwc).
    apply ranked_In in Hwc as (Hocc & Hpos & Hstop & Hlen).
    split; [|auto]. apply occurrences_pos. lia.
  - apply ranked_NoDup.
  - intros Hk. rewrite length_map. by apply slice_to_length.
Qed.

(** X23: the keywords are ordered by decreasing number of occurrences in the
    lowercased text. *)
Theorem extract_keywords_by_frequency (p q : nat) (first second : string) :
  p < q ->
  extract_keywords text max_keywords !! p = Some first ->
  extract_keywords text max_keywords !! q = Some second ->
  occurrences second (findall_words (PyStr.lower text))
  <= occurrences first (findall_words (PyStr.lower text)).
Proof.
  unfold extract_keywords. cbv zeta. intros Hpq Hp Hq.
  rewrite list_lookup_fmap in Hp, Hq.
  destruct (ranked !! p) as [wp|] eqn:Ep; [|discriminate].
  destruct (ranked !! q) as [wq|] eqn:Eq; [|discriminate].
  simpl in Hp, Hq. injection Hp as <-. injection Hq as <-.
  assert (In wp ranked) as Hinp by (apply list_elem_of_In, list_elem_of_lookup; eauto).
  assert (In wq ranked) as Hinq by (apply list_elem_of_In, list_elem_of_lookup; eauto).
  apply ranked_In in Hinp as (<- & _). apply ranked_In in Hinq as (<- & _).
  pose proof ranked_sorted as Hs.
  revert Hs Ep Eq. generalize ranked. intros l Hs.
  revert p q Hpq. induction Hs as [|x l Hs IH Hall]; intros p q Hpq Ep Eq;
    [discriminate|].
  destruct q as [|q]; [lia|]. destruct p as [|p].
  - simpl in Ep, Eq. injection Ep as ->.
    rewrite Forall_forall in Hall. apply Hall. apply list_elem_of_lookup. eauto.
  - simpl in Ep, Eq. apply (IH p q); [lia | assumption | assumption].
Qed.

End KeywordsFacts.

(** ** [extract_frames] and [filter_frames_by_quality] *)

Lemma int_of_Q_small (x : Q) : (0 <= x)%Q -> (x < 1)%Q -> int_of_Q x = 0%Z.
Proof.
  intros H0 H1. unfold int_of_Q.
  destruct (Qlt_le_dec x 0) as [Hneg|_]; [destruct (Qlt_not_le _ _ Hneg H0)|].
  pose proof (Qfloor_resp_le _ _ H0) as Hlo. change (Qfloor 0) with 0%Z in Hlo.
  pose proof (Qfloor_le x) as Hfl.
  assert (inject_Z (Qfloor x) < inject_Z 1)%Q as Hhi by (by apply (Qle_lt_trans _ x)).
  rewrite <- Zlt_Qlt in Hhi. lia.
Qed.

Lemma filter_frames_all (frames : list Frame) (min_confidence : Q) :
  Forall (fun f => (min_confidence <= frame_confidence f)%Q) frames ->
  filter_frames_by_quality frames min_confidence = frames.
Proof.
  unfold filter_frames_by_quality. induction 1 as [|f frames Hf _ IH]; [reflexivity|].
  rewrite filter_cons, decide_True by (by apply Qle_bool_iff). by rewrite IH.
Qed.

Section ExtractFramesFacts.

Variable raw : Type.
Variable is_blurry : raw -> bool.
Variable saved_size : raw -> Z * Z.
Variable frame_path : nat -> string.

Local Abbreviation loop := (extract_loop raw is_blurry saved_size frame_path).

(** What the loop keeps true of the frames extracted so far. *)
Lemma extract_loop_frames config frame_interval video_fps reads frame_count
    extracted_count frames result :
  loop config frame_interval video_fps reads frame_count extracted_count frames
  = Returns result ->
  length frames = extracted_count ->
  map frame_id frames = map Z.of_nat (seq 0 extracted_count) ->
  Forall (fun f => frame_confidence f = 1%Q) frames ->
  (Z.of_nat extracted_count <= Z.max 0 (max_frames config))%Z ->
  map frame_id result = map Z.of_nat (seq 0 (length result)) /\
  Forall (fun f => frame_confidence f = 1%Q) result /\
  (Z.of_nat (length result) <= Z.max 0 (max_frames config))%Z.
Proof.
  revert frame_count extracted_count frames.
  induction reads as [|frame rest IH]; intros frame_count extracted_count frames;
    simpl; intros Hrun Hlen Hids Hconf Hmax.
  - destruct (Z.of_nat extracted_count <? max_frames config)%Z; simpl in Hrun;
      injection Hrun as <-; rewrite Hlen; auto.
  - destruct (Z.of_nat extracted_count <? max_frames config)%Z eqn:Hlt; simpl in Hrun;
      [|injection Hrun as <-; rewrite Hlen; auto].
    apply Z.ltb_lt in Hlt.
    destruct (frame_interval =? 0)%Z; [discriminate|].
    destruct (Z.of_nat frame_count mod frame_interval =? 0)%Z;
      [|by apply (IH _ _ _ Hrun)].
    destruct (skip_blurry config && is_blurry frame); [by apply (IH _ _ _ Hrun)|].
    destruct (Qeq_bool video_fps 0); [discriminate|].
    apply (IH _ _ _ Hrun).
    + rewrite length_app. simpl. lia.
    + rewrite map_app, Hids. simpl. rewrite Nat.add_1_r, seq_S, map_app. reflexivity.
    + apply Forall_app. split; [assumption | by repeat constructor].
    + lia.
Qed.

Lemma timestamp_lt (video_fps : Q) (a b : nat) :
  (0 < video_fps)%Q -> a < b ->
  (inject_Z (Z.of_nat a) / video_fps < inject_Z (Z.of_nat b) / video_fps)%Q.
Proof.
  intros Hfps Hab. unfold Qdiv. apply Qmult_lt_compat_r.
  - by apply Qinv_lt_0_compat.
  - rewrite <- Zlt_Qlt. lia.
Qed.

Lemma extract_loop_timestamps config frame_interval video_fps reads frame_count
    extracted_count frames result :
  (0 < video_fps)%Q ->
  loop config frame_interval video_fps reads frame_count extracted_count frames
  = Returns result ->
  StronglySorted (fun f g => (timestamp f < timestamp g)%Q) frames ->
  Forall (fun f => (timestamp f < inject_Z (Z.of_nat frame_count) / video_fps)%Q) frames ->
  StronglySorted (fun f g => (timestamp f < timestamp g)%Q) result.
Proof.
  intros Hfps. revert frame_count extracted_count frames.
  assert (forall frames a b, a < b ->
            Forall (fun f => (timestamp f < inject_Z (Z.of_nat a) / video_fps)%Q) frames ->
            Forall (fun f => (timestamp f < inject_Z (Z.of_nat b) / video_fps)%Q) frames)
    as Hmono.
  { intros frames a b Hab Hall. eapply Forall_impl; [exact Hall|].
    intros f Hf. simpl in Hf. eapply Qlt_trans; [exact Hf | by apply timestamp_lt]. }
  induction reads as [|frame rest IH]; intros frame_count extracted_count frames;
    simpl; intros Hrun Hsorted Hbelow.
  - destruct (Z.of_nat extracted_count <? max_frames config)%Z; simpl in Hrun;
      by injection Hrun as <-.
  - destruct (Z.of_nat extracted_count <? max_frames config)%Z; simpl in Hrun;
      [|by injection Hrun as <-].
    destruct (frame_interval =? 0)%Z; [discriminate|].
    destruct (Z.of_nat frame_count mod frame_interval =? 0)%Z;
      [|apply (IH _ _ _ Hrun Hsorted); apply (Hmono _ frame_count); [lia | assumption]].
    destruct (skip_blurry config && is_blurry frame);
      [apply (IH _ _ _ Hrun Hsorted); apply (Hmono _ frame_count); [lia | assumption]|].
    destruct (Qeq_bool video_fps 0); [discriminate|].
    apply (IH _ _ _ Hrun).
    + clear Hrun IH. induction Hsorted as [|f frames Hs IHs Hall].
      * repeat constructor.
      * apply Forall_cons in Hbelow as [Hf Hbelow]. simpl. constructor; [by apply IHs|].
        apply Forall_app. split; [assumption | by repeat constructor].
    + apply Forall_app. split.
      * apply (Hmono _ frame_count); [lia | assumption].
      * repeat constructor. simpl. apply timestamp_lt; [assumption | lia].
Qed.

(** X24: [extract_frames] raises [ValueError] when the video cannot be
    opened, and [ZeroDivisionError] at the first frame when the requested
    rate is greater than the rate of the video (the frame interval is then
    0), provided the video has a frame and [max_frames] is positive. *)
Theorem extract_frames_errors (config : VideoConfig) (fps : Z) (video_fps : Q)
    (frame : raw) (rest : list raw) :
  (0 < max_frames config)%Z ->
  (0 <= video_fps)%Q ->
  (video_fps < inject_Z fps)%Q ->
  extract_frames raw is_blurry saved_size frame_path config None (Some fps)
  = Raises "ValueError" /\
  extract_frames raw is_blurry saved_size frame_path config
    (Some (video_fps, frame :: rest)) (Some fps)
  = Raises "ZeroDivisionError".
Proof.
  intros Hmax Hnonneg Hlt. split; [reflexivity|].
  assert (0 < inject_Z fps)%Q as Hfps by (by apply (Qle_lt_trans _ video_fps)).
  assert (0 < fps)%Z as Hfpsz by (by rewrite Zlt_Qlt).
  unfold extract_frames. rewrite (proj2 (Z.ltb_lt 0 fps) Hfpsz).
  rewrite int_of_Q_small.
  - simpl. change (Z.of_nat 0) with 0%Z.
    rewrite (proj2 (Z.ltb_lt 0 (max_frames config)) Hmax). reflexivity.
  - apply Qle_shift_div_l; [assumption|]. by rewrite Qmult_0_l.
  - apply Qlt_shift_div_r; [assumption|]. by rewrite Qmult_1_l.
Qed.

(** X25: the frames [extract_frames] returns are numbered 0, 1, 2, ... in
    order, each has confidence 1.0, and there are at most [max_frames] of
    them (none when [max_frames] is not positive). *)
Theorem extract_frames_numbering (config : VideoConfig) (video : option (Q * list raw))
    (fps : option Z) (frames : list Frame) :
  extract_frames raw is_blurry saved_size frame_path config video fps = Returns frames ->
  map frame_id frames = map Z.of_nat (seq 0 (length frames)) /\
  Forall (fun f => frame_confidence f = 1%Q) frames /\
  (Z.of_nat (length frames) <= Z.max 0 (max_frames config))%Z.
Proof.
  unfold extract_frames. destruct video as [[video_fps reads]|]; [|discriminate].
  intros Hrun. apply (extract_loop_frames _ _ _ _ _ _ _ _ Hrun);
    [reflexivity | reflexivity | constructor | simpl; lia].
Qed.

(** X26: the timestamps of the frames [extract_frames] returns increase
    strictly, for a video of positive frame rate. *)
Theorem extract_frames_timestamps_increase (config : VideoConfig) (video_fps : Q)
    (reads : list raw) (fps : option Z) (frames : list Frame) :
  (0 < video_fps)%Q ->
  extract_frames raw is_blurry saved_size frame_path config (Some (video_fps, reads)) fps
  = Returns frames ->
  StronglySorted (fun f g => (timestamp f < timestamp g)%Q) frames.
Proof.
  unfold extract_frames. intros Hfps Hrun.
  apply (extract_loop_timestamps _ _ _ _ _ _ _ _ Hfps Hrun); constructor.
Qed.

(** X27: [filter_frames_by_quality] with a minimum of at most 1.0 keeps
    every frame [extract_frames] returns. *)
Theorem filter_keeps_extracted_frames (config : VideoConfig)
    (video : option (Q * list raw)) (fps : option Z) (frames : list Frame)
    (min_confidence : Q) :
  (min_confidence <= 1)%Q ->
  extract_frames raw is_blurry saved_size frame_path config video fps = Returns frames ->
  filter_frames_by_quality frames min_confidence = frames.
Proof.
  unfold extract_frames. intros Hmin Hrun.
  destruct video as [[video_fps reads]|]; [|discriminate].
  apply filter_frames_all.
  destruct (extract_loop_frames _ _ _ _ _ _ _ _ Hrun) as (_ & Hconf & _);
    [reflexivity | reflexivity | constructor | simpl; lia |].
  eapply Forall_impl; [exact Hconf|]. intros f Hf. simpl in Hf. by rewrite Hf.
Qed.

End ExtractFramesFacts.

(** [filter_frames_by_quality] returns, in the input's order, exactly
    the frames whose confidence is at least the minimum; filtering again
    with a lower or equal minimum changes nothing. *)
Lemma filter_frames_by_quality_spec (frames : list Frame) (min_confidence lower : Q) :
  filter_frames_by_quality frames min_confidence `sublist_of` frames /\
  (forall f, In f (filter_frames_by_quality frames min_confidence)
             <-> In f frames /\ (min_confidence <= frame_confidence f)%Q) /\
  ((lower <= min_confidence)%Q ->
   filter_frames_by_quality (filter_frames_by_quality frames min_confidence) lower
   = filter_frames_by_quality frames min_confidence).
Proof.
  split; [apply sublist_filter|]. split.
  - intros f. unfold filter_frames_by_quality.
    rewrite <- !list_elem_of_In, list_elem_of_filter, Qle_bool_iff. tauto.
  - intros Hlow. apply filter_frames_all. apply Forall_forall. intros f Hf.
    unfold filter_frames_by_quality in Hf.
    apply list_elem_of_filter in Hf as [Hf _]. apply Qle_bool_iff in Hf.
    by apply (Qle_trans _ min_confidence).
Qed.

(** ** The [frames] command *)

Lemma StronglySorted_sublist {A : Type} (R : A -> A -> Prop) (l k : list A) :
  l `sublist_of` k -> StronglySorted R k -> StronglySorted R l.
Proof.
  induction 1 as [|x l k Hsub IH|x l k Hsub IH]; intros Hk.
  - constructor.
  - apply StronglySorted_inv in Hk as [Hk Hx]. constructor; [by apply IH|].
    apply Forall_forall. intros y Hy. rewrite Forall_forall in Hx. apply Hx.
    apply sublist_submseteq in Hsub. exact (elem_of_submseteq _ _ _ Hy Hsub).
  - apply StronglySorted_inv in Hk as [Hk _]. by apply IH.
Qed.

Section FramesCommandFacts.

Variable raw : Type.
Variable is_blurry : raw -> bool.
Variable saved_size : raw -> Z * Z.
Variable frame_path : nat -> string.
Variable image : Type.
Variable imread : string -> option image.
Variable resized_ssim : image -> image -> outcome Q.

Lemma deduplicate_frames_sublist (frames : list Frame) (threshold : Q) :
  deduplicate_frames image imread resized_ssim frames threshold `sublist_of` frames.
Proof.
  unfold deduplicate_frames, deduplicate_frames_run.
  destruct frames as [|first rest]; [constructor|].
  apply (dedup_loop_sublist image imread resized_ssim threshold rest [first] [] [first]).
  reflexivity.
Qed.

(** X28: with or without [--dedup], the frames that the [frames] command
    saves are frames of [extract_frames] in their order, at most 1000 of
    them, with strictly increasing numbers and, for a video of positive
    frame rate, strictly increasing timestamps. *)
Theorem frames_command_frames_in_order (video_fps : Q) (reads : list raw) (fps : Z)
    (dedup : bool) (saved : list Frame) :
  (0 < video_fps)%Q ->
  frames_command raw is_blurry saved_size frame_path image imread resized_ssim
    (Some (video_fps, reads)) fps dedup = Returns saved ->
  (exists frames,
     extract_frames raw is_blurry saved_size frame_path default_config
       (Some (video_fps, reads)) (Some fps) = Returns frames /\
     saved `sublist_of` frames) /\
  length saved <= 1000 /\
  StronglySorted (fun f g => (frame_id f < frame_id g)%Z) saved /\
  StronglySorted (fun f g => (timestamp f < timestamp g)%Q) saved.
Proof.
  intros Hfps. unfold frames_command.
  destruct (extract_frames raw is_blurry saved_size frame_path default_config
              (Some (video_fps, reads)) (Some fps)) as [frames|e] eqn:Hrun;
    simpl; [|discriminate].
  intros [= <-].
  set (saved := if dedup then _ else frames).
  assert (saved `sublist_of` frames) as Hsub.
  { unfold saved. destruct dedup; [apply deduplicate_frames_sublist | reflexivity]. }
  unfold extract_frames in Hrun.
  destruct (extract_loop_frames _ _ _ _ _ _ _ _ _ _ _ _ Hrun) as (Hids & _ & Hmax);
    [reflexivity | reflexivity | constructor | simpl; lia |].
  pose proof (extract_loop_timestamps _ _ _ _ _ _ _ _ _ _ _ _ Hfps Hrun) as Hts.
  split; [exists frames; split; [reflexivity | exact Hsub]|].
  split; [apply sublist_length in Hsub; simpl in Hmax; lia|].
  split; apply (StronglySorted_sublist _ _ _ Hsub).
  - clear -Hids. set (k := 0) in Hids. clearbody k.
    revert k Hids. induction frames as [|f frames IH]; intros k Hids; [constructor|].
    simpl in Hids. injection Hids as Hf Hrest. constructor; [by apply (IH (S k))|].
    apply Forall_forall. intros g Hg.
    assert (frame_id g ∈ map frame_id frames) as Hin by (by apply list_elem_of_fmap_2).
    rewrite Hrest in Hin. apply list_elem_of_fmap in Hin as (i & -> & Hi).
    apply elem_of_seq in Hi. lia.
  - apply Hts; constructor.
Qed.

End FramesCommandFacts.

(** X28 for the sample video with [--dedup], every frame read as the same
    image. *)
Lemma frames_command_frames_in_order_witness :
  (0 < 2)%Q /\
  frames_command nat SampleVideo.is_blurry SampleVideo.saved_size SampleVideo.frame_path
    string (fun _ => Some "shot"%string) SampleImages.resized_ssim
    (Some (2%Q, [7; 8; 0; 9; 5])) 1 true
  = Returns (take 1 SampleVideo.frames) /\
  (exists frames,
     extract_frames nat SampleVideo.is_blurry SampleVideo.saved_size SampleVideo.frame_path
       default_config (Some (2%Q, [7; 8; 0; 9; 5])) (Some 1%Z) = Returns frames /\
     take 1 SampleVideo.frames `sublist_of` frames) /\
  length (take 1 SampleVideo.frames) <= 1000 /\
  StronglySorted (fun f g => (frame_id f < frame_id g)%Z) (take 1 SampleVideo.frames) /\
  StronglySorted (fun f g => (timestamp f < timestamp g)%Q) (take 1 SampleVideo.frames).
Proof.
  assert (0 < 2)%Q as Hfps by reflexivity.
  assert (frames_command nat SampleVideo.is_blurry SampleVideo.saved_size
            SampleVideo.frame_path string (fun _ => Some "shot"%string)
            SampleImages.resized_ssim (Some (2%Q, [7; 8; 0; 9; 5])) 1 true
          = Returns (take 1 SampleVideo.frames)) as Hrun by (vm_compute; reflexivity).
  split; [exact Hfps|]. split; [exact Hrun|].
  exact (frames_command_frames_in_order nat SampleVideo.is_blurry SampleVideo.saved_size
           SampleVideo.frame_path string (fun _ => Some "shot"%string)
           SampleImages.resized_ssim 2 [7; 8; 0; 9; 5] 1 true _ Hfps Hrun).
Defined.

(** ** The further properties on concrete inputs *)

(** X5 on two blocks with different texts. *)
Lemma deduplicate_texts_distinct_unchanged_witness :
  NoDup (map text [SampleBlocks.block "x = 1" (9 # 10) 0; SampleBlocks.block "y = 2" (9 # 10) 1]) /\
  deduplicate_texts (TextDeduplicator_init None)
    [SampleBlocks.block "x = 1" (9 # 10) 0; SampleBlocks.block "y = 2" (9 # 10) 1]
  = [SampleBlocks.block "x = 1" (9 # 10) 0; SampleBlocks.block "y = 2" (9 # 10) 1].
Proof.
  assert (NoDup (map text [SampleBlocks.block "x = 1" (9 # 10) 0;
                           SampleBlocks.block "y = 2" (9 # 10) 1])) as H.
  { simpl. apply NoDup_cons. split; [|apply NoDup_singleton].
    intros Hin. apply list_elem_of_singleton in Hin. discriminate. }
  split; [exact H|].
  exact (deduplicate_texts_distinct_unchanged (TextDeduplicator_init None) _ H).
Defined.

(** X6 on two different images: the second retained frame against the
    first. *)
Lemma deduplicate_frames_output_spread_witness :
  deduplicate_frames string SampleImages.imread SampleImages.resized_ssim
    [SampleImages.frame 0 "a.jpg"; SampleImages.frame 1 "b.jpg"] default_threshold
  = [SampleImages.frame 0 "a.jpg"] ++ SampleImages.frame 1 "b.jpg" :: [] /\
  In (SampleImages.frame 0 "a.jpg") [SampleImages.frame 0 "a.jpg"] /\
  (_calculate_frame_similarity string SampleImages.imread SampleImages.resized_ssim
     (SampleImages.frame 1 "b.jpg") (SampleImages.frame 0 "a.jpg") <= default_threshold)%Q.
Proof.
  assert (deduplicate_frames string SampleImages.imread SampleImages.resized_ssim
            [SampleImages.frame 0 "a.jpg"; SampleImages.frame 1 "b.jpg"] default_threshold
          = [SampleImages.frame 0 "a.jpg"] ++ SampleImages.frame 1 "b.jpg" :: []) as H
    by reflexivity.
  assert (In (SampleImages.frame 0 "a.jpg") [SampleImages.frame 0 "a.jpg"]) as Hin
    by (by left).
  split; [exact H|]. split; [exact Hin|].
  exact (deduplicate_frames_output_spread string SampleImages.imread
           SampleImages.resized_ssim default_threshold _ _ _ _ _ H Hin).
Defined.

(** X7 on the same image twice: the second frame is covered by the first. *)
Lemma deduplicate_frames_covers_input_witness :
  In (SampleImages.frame 1 "a.jpg")
    [SampleImages.frame 0 "a.jpg"; SampleImages.frame 1 "a.jpg"] /\
  (In (SampleImages.frame 1 "a.jpg")
     (deduplicate_frames string SampleImages.imread SampleImages.resized_ssim
        [SampleImages.frame 0 "a.jpg"; SampleImages.frame 1 "a.jpg"] default_threshold) \/
   exists u,
     In u (deduplicate_frames string SampleImages.imread SampleImages.resized_ssim
             [SampleImages.frame 0 "a.jpg"; SampleImages.frame 1 "a.jpg"] default_threshold) /\
     (default_threshold
      < _calculate_frame_similarity string SampleImages.imread SampleImages.resized_ssim
          (SampleImages.frame 1 "a.jpg") u)%Q).
Proof.
  assert (In (SampleImages.frame 1 "a.jpg")
            [SampleImages.frame 0 "a.jpg"; SampleImages.frame 1 "a.jpg"]) as Hin
    by (right; by left).
  split; [exact Hin|].
  exact (deduplicate_frames_covers_input string SampleImages.imread
           SampleImages.resized_ssim default_threshold _ _ Hin).
Defined.

(** X15 for the Jaccard score of two lines of code. *)
Lemma normalize_keeps_similarity_witness :
  In "jaccard"%string ["jaccard"; "levenshtein"; "word_overlap"]%string /\
  exists s,
    calculate_text_similarity SampleTfidf.tfidf_cosine "def foo(): pass" "def bar(): pass"
      "jaccard" = Returns s /\
    (normalize_text_similarity s == s)%Q.
Proof.
  assert (In "jaccard"%string ["jaccard"; "levenshtein"; "word_overlap"]%string) as H
    by (by left).
  split; [exact H|].
  exact (normalize_keeps_similarity SampleTfidf.tfidf_cosine
           "def foo(): pass" "def bar(): pass" "jaccard" H).
Defined.

(** X21 for three texts under the Jaccard method. *)
Lemma calculate_similarity_matrix_symmetric_witness :
  In "jaccard"%string ["jaccard"; "levenshtein"; "word_overlap"]%string /\
  exists a,
    calculate_similarity_matrix SampleTfidf.tfidf_cosine
      ["def foo():"; "def bar():"; "x = 1"]%string "jaccard" = Returns a /\
    forall i j, i < 3 -> j < 3 -> Array2.cell a i j = Array2.cell a j i.
Proof.
  assert (In "jaccard"%string ["jaccard"; "levenshtein"; "word_overlap"]%string) as H
    by (by left).
  split; [exact H|].
  exact (calculate_similarity_matrix_symmetric SampleTfidf.tfidf_cosine
           ["def foo():"; "def bar():"; "x = 1"]%string "jaccard" H).
Defined.

(** X23 for a sentence in which one word occurs twice. *)
Lemma extract_keywords_by_frequency_witness :
  0 < 1 /\
  extract_keywords "Parse the frame, then parse again" 10 !! 0 = Some "parse"%string /\
  extract_keywords "Parse the frame, then parse again" 10 !! 1 = Some "frame"%string /\
  occurrences "frame" (findall_words (PyStr.lower "Parse the frame, then parse again"))
  <= occurrences "parse" (findall_words (PyStr.lower "Parse the frame, then parse again")).
Proof.
  assert (0 < 1) as Hlt by lia.
  assert (extract_keywords "Parse the frame, then parse again" 10 !! 0
          = Some "parse"%string) as H0 by (vm_compute; reflexivity).
  assert (extract_keywords "Parse the frame, then parse again" 10 !! 1
          = Some "frame"%string) as H1 by (vm_compute; reflexivity).
  split; [exact Hlt|]. split; [exact H0|]. split; [exact H1|].
  exact (extract_keywords_by_frequency "Parse the frame, then parse again" 10
           0 1 "parse" "frame" Hlt H0 H1).
Defined.

(** X24 for a video of two frames a second, asked for three. *)
Lemma extract_frames_errors_witness :
  (0 < max_frames SampleVideo.config)%Z /\ (0 <= 2)%Q /\ (2 < inject_Z 3)%Q /\
  extract_frames nat SampleVideo.is_blurry SampleVideo.saved_size SampleVideo.frame_path
    SampleVideo.config None (Some 3%Z) = Raises "ValueError" /\
  extract_frames nat SampleVideo.is_blurry SampleVideo.saved_size SampleVideo.frame_path
    SampleVideo.config (Some (2%Q, [7; 8])) (Some 3%Z) = Raises "ZeroDivisionError".
Proof.
  assert (0 < max_frames SampleVideo.config)%Z as H1 by reflexivity.
  assert (0 <= 2)%Q as H2 by discriminate.
  assert (2 < inject_Z 3)%Q as H3 by reflexivity.
  split; [exact H1|]. split; [exact H2|]. split; [exact H3|].
  exact (extract_frames_errors nat SampleVideo.is_blurry SampleVideo.saved_size
           SampleVideo.frame_path SampleVideo.config 3 2 7 [8] H1 H2 H3).
Defined.

Lemma sample_video_frames :
  extract_frames nat SampleVideo.is_blurry SampleVideo.saved_size SampleVideo.frame_path
    SampleVideo.config SampleVideo.video None = Returns SampleVideo.frames.
Proof. vm_compute. reflexivity. Qed.

(** X25 for the sample video at the configured rate. *)
Lemma extract_frames_numbering_witness :
  extract_frames nat SampleVideo.is_blurry SampleVideo.saved_size SampleVideo.frame_path
    SampleVideo.config SampleVideo.video None = Returns SampleVideo.frames /\
  map frame_id SampleVideo.frames = map Z.of_nat (seq 0 (length SampleVideo.frames)) /\
  Forall (fun f => frame_confidence f = 1%Q) SampleVideo.frames /\
  (Z.of_nat (length SampleVideo.frames) <= Z.max 0 (max_frames SampleVideo.config))%Z.
Proof.
  split; [exact sample_video_frames|].
  exact (extract_frames_numbering nat SampleVideo.is_blurry SampleVideo.saved_size
           SampleVideo.frame_path SampleVideo.config SampleVideo.video None
           SampleVideo.frames sample_video_frames).
Defined.

(** X26 for the sample video. *)
Lemma extract_frames_timestamps_increase_witness :
  (0 < 2)%Q /\
  extract_frames nat SampleVideo.is_blurry SampleVideo.saved_size SampleVideo.frame_path
    SampleVideo.config (Some (2%Q, [7; 8; 0; 9; 5])) None = Returns SampleVideo.frames /\
  StronglySorted (fun f g => (timestamp f < timestamp g)%Q) SampleVideo.frames.
Proof.
  assert (0 < 2)%Q as Hfps by reflexivity.
  split; [exact Hfps|]. split; [exact sample_video_frames|].
  exact (extract_frames_timestamps_increase nat SampleVideo.is_blurry
           SampleVideo.saved_size SampleVideo.frame_path SampleVideo.config 2
           [7; 8; 0; 9; 5] None SampleVideo.frames Hfps sample_video_frames).
Defined.

(** X27 for the sample video and the default minimum of 0.8. *)
Lemma filter_keeps_extracted_frames_witness :
  (8 # 10 <= 1)%Q /\
  extract_frames nat SampleVideo.is_blurry SampleVideo.saved_size SampleVideo.frame_path
    SampleVideo.config SampleVideo.video None = Returns SampleVideo.frames /\
  filter_frames_by_quality SampleVideo.frames (8 # 10) = SampleVideo.frames.
Proof.
  assert (8 # 10 <= 1)%Q as Hmin by discriminate.
  split; [exact Hmin|]. split; [exact sample_video_frames|].
  exact (filter_keeps_extracted_frames nat SampleVideo.is_blurry SampleVideo.saved_size
           SampleVideo.frame_path SampleVideo.config SampleVideo.video None
           SampleVideo.frames (8 # 10) Hmin sample_video_frames).
Defined.
